(** * File integrity monitor: a shallow embedding of [file_integrity_monitor.py]

    The script hashes every file below a directory, stores the resulting
    path-to-digest dictionary as JSON, and on a later run compares a fresh
    scan with the stored one.  Python dictionaries from path to digest are
    [gmap string string], Python sets of paths are [gset string], raised
    exceptions are the [Raise] case of [result], and the code that touches
    the file system or the terminal runs in a state monad over [world]. *)

From Stdlib Require Import ZArith Lia Ascii.
From Stdlib Require Strings.Byte.
From stdpp Require Import base option list gmap strings fin_maps fin_sets.
From Equations Require Import Equations.

Set Warnings "-register-all,-abstract-large-number,-clear-no-such-hyp".

Local Open Scope string_scope.
Local Open Scope list_scope.

Abbreviation byte := Corelib.Init.Byte.byte.

(** ** Exceptions and results *)

(** The exception classes the script can meet.  Every one of them derives
    from Python's [Exception] but [SystemExit], which argparse raises and
    which derives from [BaseException] only. *)
Inductive exn_class : Type :=
  | AttributeError
  | TypeError
  | KeyError
  | FileNotFoundError
  | IsADirectoryError
  | PermissionError
  | JSONDecodeError
  | SystemExit (code : Z).

Record exn : Type := Exn { exn_cls : exn_class; exn_str : string }.

(** [isinstance(e, Exception)]. *)
Definition is_Exception (e : exn) : bool :=
  match exn_cls e with
  | SystemExit _ => false
  | _ => true
  end.

Inductive result (A : Type) : Type :=
  | Return (a : A)
  | Raise (e : exn).
Arguments Return {A} a.
Arguments Raise {A} e.

#[global] Instance result_ret : MRet result := @Return.
#[global] Instance result_bind : MBind result := λ A B f r,
  match r with
  | Return a => f a
  | Raise e => Raise e
  end.

(** [for x in l: body], threading the loop's variables [s]; an exception
    raised by the body leaves the loop. *)
Fixpoint for_each {A S : Type} (l : list A) (body : S → A → result S) (s : S)
  : result S :=
  match l with
  | [] => Return s
  | x :: l' =>
      match body s x with
      | Return s' => for_each l' body s'
      | Raise e => Raise e
      end
  end.

(** ** Snapshots and their comparison *)

Abbreviation snapshot := (gmap string string).

(** [d[k]]: a missing key raises [KeyError]. *)
Definition getitem (d : snapshot) (k : string) : result string :=
  match d !! k with
  | Some v => Return v
  | None => Raise (Exn KeyError k)
  end.

(** [lst.append(x)]. *)
Definition append {A : Type} (lst : list A) (x : A) : list A := lst ++ [x].

Definition diff_result : Type := list string * list string * list string.

(** [compare_hashes(old_hashes, new_hashes)].  A Python set is iterated in
    an order the language leaves open; [elements] fixes one. *)
Definition compare_hashes (old_hashes new_hashes : snapshot) : result diff_result :=
  let old_files : gset string := dom old_hashes in
  let new_files : gset string := dom new_hashes in
  added ← for_each (elements (new_files ∖ old_files))
            (λ added file, Return (append added file)) [];
  removed ← for_each (elements (old_files ∖ new_files))
            (λ removed file, Return (append removed file)) [];
  changed ← for_each (elements (new_files ∩ old_files))
            (λ changed file,
               o ← getitem old_hashes file;
               n ← getitem new_hashes file;
               if decide (o ≠ n) then Return (append changed file)
               else Return changed) [];
  Return (added, removed, changed).

Definition added_of (d : diff_result) : list string := d.1.1.
Definition removed_of (d : diff_result) : list string := d.1.2.
Definition changed_of (d : diff_result) : list string := d.2.

(** The three collections the spec's Diff Engine describes. *)
Definition spec_added (baseline current : snapshot) : gset string :=
  dom current ∖ dom baseline.
Definition spec_removed (baseline current : snapshot) : gset string :=
  dom baseline ∖ dom current.
Definition spec_changed (baseline current : snapshot) : gset string :=
  filter (λ p, baseline !! p ≠ current !! p) (dom baseline ∩ dom current).

(** A path of both snapshots that carries the same digest in each. *)
Definition unchanged (baseline current : snapshot) (p : string) : Prop :=
  p ∈ dom baseline ∧ p ∈ dom current ∧ baseline !! p = current !! p.

(** Exactly one of four propositions holds. *)
Definition exactly_one (P1 P2 P3 P4 : Prop) : Prop :=
  (P1 ∧ ¬ P2 ∧ ¬ P3 ∧ ¬ P4) ∨ (¬ P1 ∧ P2 ∧ ¬ P3 ∧ ¬ P4)
  ∨ (¬ P1 ∧ ¬ P2 ∧ P3 ∧ ¬ P4) ∨ (¬ P1 ∧ ¬ P2 ∧ ¬ P3 ∧ P4).

(** ** The world: directories, files, terminal *)

(** What [os.scandir] finds below a directory: regular files and
    directories; a directory that cannot be listed has no listing. *)
Inductive node : Type :=
  | File
  | Dir (listing : option (list (string * node))).

(** What [open] finds at a path: bytes, or a file that may not be opened. *)
Inductive file_data : Type :=
  | Data (content : list byte)
  | Denied.

(** [dirs] gives the tree found at a path handed to [os.walk], [files] what
    [open] finds at a path.  The two are independent, as on a file system
    that changes between the listing and the reading of a file. *)
Record world : Type := World {
  dirs : gmap string node;
  files : gmap string file_data;
  stdout : list string
}.

(** Effectful code: it may change the world and may raise. *)
Definition M (A : Type) : Type := world → result A * world.

#[global] Instance M_ret : MRet M := λ A a w, (Return a, w).
#[global] Instance M_bind : MBind M := λ A B f m w,
  match m w with
  | (Return a, w') => f a w'
  | (Raise e, w') => (Raise e, w')
  end.

Definition raise {A : Type} (e : exn) : M A := λ w, (Raise e, w).

Definition lift {A : Type} (r : result A) : M A := λ w, (r, w).

(** [print(line)]. *)
Definition print (line : string) : M unit := λ w,
  (Return tt, World (dirs w) (files w) (append (stdout w) line)).

(** [try: body / except Exception as e: handler(e)]. *)
Definition try_except {A : Type} (body : M A) (handler : exn → M A) : M A := λ w,
  match body w with
  | (Return a, w') => (Return a, w')
  | (Raise e, w') => if is_Exception e then handler e w' else (Raise e, w')
  end.

(** [for x in l: body] for effectful bodies. *)
Fixpoint for_each_io {A S : Type} (l : list A) (body : S → A → M S) (s : S) : M S :=
  match l with
  | [] => mret s
  | x :: l' => s' ← body s x; for_each_io l' body s'
  end.

(** ** Paths *)

Definition sep : ascii := "/"%char.

Definition startswith_sep (s : string) : bool :=
  match s with
  | String c _ => bool_decide (c = sep)
  | EmptyString => false
  end.

Fixpoint endswith_sep (s : string) : bool :=
  match s with
  | EmptyString => false
  | String c EmptyString => bool_decide (c = sep)
  | String _ s' => endswith_sep s'
  end.

(** [os.path.join(a, b)] of posixpath. *)
Definition os_path_join (a b : string) : string :=
  if startswith_sep b then b
  else if bool_decide (a = EmptyString) || endswith_sep a then a +:+ b
  else a +:+ "/" +:+ b.

Definition is_dir (n : node) : bool :=
  match n with
  | Dir _ => true
  | File => false
  end.

Definition walk_entry : Type := string * list string * list string.

(** The triples [(dirpath, dirnames, filenames)] that [os.walk(top)] yields,
    top-down.  With the default [onerror=None] a directory that cannot be
    listed yields nothing and raises nothing. *)
Fixpoint walk_node (top : string) (n : node) : list walk_entry :=
  match n with
  | File => []
  | Dir None => []
  | Dir (Some entries) =>
      (top,
       (filter (λ e, is_dir e.2 = true) entries).*1,
       (filter (λ e, is_dir e.2 = false) entries).*1)
      :: flat_map (λ e, if is_dir e.2
                        then walk_node (os_path_join top e.1) e.2
                        else []) entries
  end.

(** [os.walk(top)]: a path at which there is nothing yields nothing. *)
Definition os_walk (top : string) : M (list walk_entry) := λ w,
  (Return (match dirs w !! top with
           | Some n => walk_node top n
           | None => []
           end), w).

(** ** Hash objects *)

(** A [hashlib] hash object: the algorithm's digest function and the bytes
    fed to [update] so far.  The objects of the [shake_*] algorithms want
    a length for [hexdigest]. *)
Record hash_object : Type := HashObject {
  hash_xof : bool;
  hash_digest : list byte → list byte;
  hash_data : list byte
}.

(** [h.update(chunk)]. *)
Definition update (h : hash_object) (chunk : list byte) : hash_object :=
  HashObject (hash_xof h) (hash_digest h) (hash_data h ++ chunk).

Definition hex_digit (n : N) : ascii :=
  match n with
  | 0 => "0" | 1 => "1" | 2 => "2" | 3 => "3" | 4 => "4" | 5 => "5"
  | 6 => "6" | 7 => "7" | 8 => "8" | 9 => "9" | 10 => "a" | 11 => "b"
  | 12 => "c" | 13 => "d" | 14 => "e" | _ => "f"
  end%N%char.

Definition hex_of_byte (b : byte) : string :=
  let n := Strings.Byte.to_N b in
  String (hex_digit (n / 16)) (String (hex_digit (n mod 16)) EmptyString).

(** [bytes.hex()]. *)
Fixpoint hex (bs : list byte) : string :=
  match bs with
  | [] => EmptyString
  | b :: bs' => hex_of_byte b +:+ hex bs'
  end.

(** The value of a hexadecimal digit of either case. *)
Definition hex_value (c : ascii) : option N :=
  let n := N_of_ascii c in
  if bool_decide (48 ≤ n ≤ 57)%N then Some (n - 48)%N
  else if bool_decide (97 ≤ n ≤ 102)%N then Some (n - 87)%N
  else if bool_decide (65 ≤ n ≤ 70)%N then Some (n - 55)%N
  else None.

(** [bytes.fromhex(s)], for a text without blanks. *)
Fixpoint unhex (s : string) : option (list byte) :=
  match s with
  | EmptyString => Some []
  | String h (String l rest) =>
      a ← hex_value h; b ← hex_value l;
      byte ← Strings.Byte.of_N (a * 16 + b);
      tail ← unhex rest;
      Some (byte :: tail)
  | String _ EmptyString => None
  end.

(** [h.hexdigest()], called without a length. *)
Definition hexdigest (h : hash_object) : result string :=
  if hash_xof h
  then Raise (Exn TypeError "hexdigest() missing required argument 'length' (pos 1)")
  else Return (hex (hash_digest h (hash_data h))).

(** An attribute of the [hashlib] module: a hash constructor, or anything
    else, which cannot be called without arguments to give a hash object. *)
Inductive hashlib_attr : Type :=
  | HashConstructor (xof : bool) (digest : list byte → list byte)
  | OtherAttribute (call_error : string).

(** The part of [hashlib] the script uses; both depend on the Python build. *)
Record hashlib_module : Type := Hashlib {
  hashlib_getattr : string → option hashlib_attr;
  algorithms_available : gset string
}.

(** ** Reading a file *)

(** [open(file_path, "rb")]: the bytes the file object will deliver. *)
Definition open_rb (file_path : string) : M (list byte) := λ w,
  match files w !! file_path with
  | Some (Data content) => (Return content, w)
  | Some Denied =>
      (Raise (Exn PermissionError
                ("[Errno 13] Permission denied: '" +:+ file_path +:+ "'")), w)
  | None =>
      (Raise (Exn FileNotFoundError
                ("[Errno 2] No such file or directory: '" +:+ file_path +:+ "'")), w)
  end.

Definition inspect {A : Type} (x : A) : {y : A | x = y} := exist _ x eq_refl.

(** [while chunk := f.read(size): hash_func.update(chunk)], where [f] is
    what is left of the file. *)
Equations? read_loop (size : nat) (f : list byte) (hash_func : hash_object)
  : hash_object by wf (length f) lt :=
  read_loop size f hash_func with inspect (take size f) => {
    | exist _ nil _ := hash_func;
    | exist _ (cons b chunk) _ :=
        read_loop size (drop size f) (update hash_func (b :: chunk)) }.
Proof.
  destruct size; [done|]. destruct f; [done|].
  simpl. rewrite length_drop. lia.
Qed.

(** The [AttributeError] of [getattr(hashlib, name)] for a missing name. *)
Definition unknown_attribute (name : string) : exn :=
  Exn AttributeError ("module 'hashlib' has no attribute '" +:+ name +:+ "'").

(** [f"Error hashing {file_path}: {e}"]. *)
Definition error_line (file_path : string) (e : exn) : string :=
  "Error hashing " +:+ file_path +:+ ": " +:+ exn_str e.

Section Monitor.

Variable hashlib : hashlib_module.

(** [getattr(hashlib, algorithm)()]. *)
Definition getattr_call (algorithm : string) : result hash_object :=
  match hashlib_getattr hashlib algorithm with
  | Some (HashConstructor xof digest) => Return (HashObject xof digest [])
  | Some (OtherAttribute call_error) => Raise (Exn TypeError call_error)
  | None => Raise (unknown_attribute algorithm)
  end.

(** [calculate_file_hash] with the size of a read left open. *)
Definition calculate_file_hash_sized (size : nat) (file_path algorithm : string)
  : M string :=
  hash_func ← lift (getattr_call algorithm);
  f ← open_rb file_path;
  let hash_func := read_loop size f hash_func in
  lift (hexdigest hash_func).

(** [calculate_file_hash(file_path, algorithm)]. *)
Definition calculate_file_hash (file_path algorithm : string) : M string :=
  calculate_file_hash_sized 8192 file_path algorithm.

(** The body of the inner loop of [scan_directory]. *)
Definition scan_file (algorithm root : string) (file_hashes : snapshot)
    (name : string) : M snapshot :=
  let file_path := os_path_join root name in
  try_except
    (digest ← calculate_file_hash file_path algorithm;
     mret (<[file_path := digest]> file_hashes))
    (λ e, print (error_line file_path e);; mret file_hashes).

(** [scan_directory(directory, algorithm)]. *)
Definition scan_directory (directory algorithm : string) : M snapshot :=
  walked ← os_walk directory;
  for_each_io walked
    (λ file_hashes entry,
       let '(root, _, files) := entry in
       for_each_io files (scan_file algorithm root) file_hashes)
    ∅.

(** What hashing one file gives in a world. *)
Definition hash_outcome (w : world) (algorithm file_path : string)
  : result string :=
  (calculate_file_hash file_path algorithm w).1.

(** The lines a scan prints for the files it could not hash. *)
Definition scan_errors (w : world) (algorithm : string) (paths : list string)
  : list string :=
  omap (λ p, match hash_outcome w algorithm p with
             | Raise e => Some (error_line p e)
             | Return _ => None
             end) paths.

(** The dictionary a scan builds from the paths it visits. *)
Definition scan_fold (w : world) (algorithm : string) (paths : list string)
    (file_hashes : snapshot) : snapshot :=
  foldl (λ file_hashes p,
           match hash_outcome w algorithm p with
           | Return digest => <[p := digest]> file_hashes
           | Raise _ => file_hashes
           end) file_hashes paths.

(** The spec's reference for a digest: the whole content in one update. *)
Definition spec_digest (algorithm : string) (content : list byte)
  : result string :=
  hash_func ← getattr_call algorithm;
  hexdigest (update hash_func content).

End Monitor.

(** The paths [scan_directory] hands to [calculate_file_hash], in order. *)
Definition walked_files (w : world) (directory : string) : list string :=
  flat_map (λ entry : walk_entry,
              let '(root, _, files) := entry in map (os_path_join root) files)
    (match dirs w !! directory with
     | Some n => walk_node directory n
     | None => []
     end).

Definition is_lower_hex (c : ascii) : bool :=
  bool_decide (48 ≤ N_of_ascii c ≤ 57)%N || bool_decide (97 ≤ N_of_ascii c ≤ 102)%N.

Fixpoint lowercase_hex (s : string) : bool :=
  match s with
  | EmptyString => true
  | String c s' => is_lower_hex c && lowercase_hex s'
  end.

(** ** JSON text of a snapshot *)

(** Python strings are modelled by [string], whose characters are the code
    points below 256.  [json.dump] writes ASCII only; what [json.load] does
    on documents other than an object of strings is outside this model,
    which rejects them. *)

Definition dquote : ascii := "034"%char.
Definition backslash : ascii := "\"%char.
Definition newline : ascii := "010"%char.

(** ['{0:04x}'.format(n)]. *)
Definition hex4 (n : N) : string :=
  String (hex_digit (n / 4096 mod 16))
    (String (hex_digit (n / 256 mod 16))
       (String (hex_digit (n / 16 mod 16))
          (String (hex_digit (n mod 16)) EmptyString))).

(** The replacement [py_encode_basestring_ascii] makes for one character:
    [ESCAPE_DCT] first, any other character outside [' '..'~'] as [\uXXXX]. *)
Definition escape_char (c : ascii) : string :=
  if decide (c = backslash) then "\\"
  else if decide (c = dquote) then String backslash (String dquote EmptyString)
  else if decide (c = "008"%char) then "\b"
  else if decide (c = "012"%char) then "\f"
  else if decide (c = newline) then "\n"
  else if decide (c = "013"%char) then "\r"
  else if decide (c = "009"%char) then "\t"
  else if bool_decide (32 ≤ N_of_ascii c ≤ 126)%N then String c EmptyString
  else "\u" +:+ hex4 (N_of_ascii c).

Fixpoint escape (s : string) : string :=
  match s with
  | EmptyString => EmptyString
  | String c s' => escape_char c +:+ escape s'
  end.

Definition encode_basestring_ascii (s : string) : string :=
  String dquote (escape s +:+ String dquote EmptyString).

Definition json_item (kv : string * string) : string :=
  encode_basestring_ascii kv.1 +:+ ": " +:+ encode_basestring_ascii kv.2.

Definition item_separator : string := String "," (String newline "    ").

Fixpoint json_items (items : list (string * string)) : string :=
  match items with
  | [] => EmptyString
  | [kv] => json_item kv
  | kv :: rest => json_item kv +:+ item_separator +:+ json_items rest
  end.

(** [json.dumps(d, indent=4)] of a dictionary with the given items. *)
Definition json_dumps_items (items : list (string * string)) : string :=
  match items with
  | [] => "{}"
  | _ => String "{" (String newline "    ") +:+ json_items items
           +:+ String newline "}"
  end.

Definition json_dumps (hashes : snapshot) : string :=
  json_dumps_items (map_to_list hashes).

(** The dictionary [JSONObject] builds from the pairs it reads, in order. *)
Definition insert_pairs (items : list (string * string)) (pairs : snapshot)
  : snapshot :=
  foldl (λ pairs kv, <[kv.1 := kv.2]> pairs) pairs items.

Definition decode_error (msg : string) : exn := Exn JSONDecodeError msg.

(** The code point of [\uXXXX], when it is one this model has. *)
Definition decode_uXXXX (h1 h2 h3 h4 : ascii) : option ascii :=
  a ← hex_value h1; b ← hex_value h2; c ← hex_value h3; d ← hex_value h4;
  let n := (a * 4096 + b * 256 + c * 16 + d)%N in
  if bool_decide (n < 256)%N then Some (ascii_of_N n) else None.

(** The table [BACKSLASH] of [json.decoder]. *)
Definition unescape (esc : ascii) : option ascii :=
  if decide (esc = dquote) then Some dquote
  else if decide (esc = backslash) then Some backslash
  else if decide (esc = "/"%char) then Some "/"%char
  else if decide (esc = "b"%char) then Some "008"%char
  else if decide (esc = "f"%char) then Some "012"%char
  else if decide (esc = "n"%char) then Some newline
  else if decide (esc = "r"%char) then Some "013"%char
  else if decide (esc = "t"%char) then Some "009"%char
  else None.

(** [scanstring(s, end)] in strict mode, from just after the opening quote:
    the string and the text after its closing quote. *)
Fixpoint scanstring (s : string) : result (string * string) :=
  match s with
  | EmptyString => Raise (decode_error "Unterminated string starting at")
  | String c rest =>
      if decide (c = dquote) then Return (EmptyString, rest)
      else if decide (c = backslash) then
        match rest with
        | EmptyString => Raise (decode_error "Unterminated string starting at")
        | String esc rest1 =>
            if decide (esc = "u"%char) then
              match rest1 with
              | String h1 (String h2 (String h3 (String h4 rest2))) =>
                  match decode_uXXXX h1 h2 h3 h4 with
                  | Some ch =>
                      match scanstring rest2 with
                      | Return (tail, after) => Return (String ch tail, after)
                      | Raise e => Raise e
                      end
                  | None => Raise (decode_error "Invalid \uXXXX escape")
                  end
              | _ => Raise (decode_error "Invalid \uXXXX escape")
              end
            else
              match unescape esc with
              | Some ch =>
                  match scanstring rest1 with
                  | Return (tail, after) => Return (String ch tail, after)
                  | Raise e => Raise e
                  end
              | None => Raise (decode_error "Invalid \escape")
              end
        end
      else if bool_decide (N_of_ascii c < 32)%N then
        Raise (decode_error "Invalid control character at")
      else
        match scanstring rest with
        | Return (tail, after) => Return (String c tail, after)
        | Raise e => Raise e
        end
  end.

Definition is_whitespace (c : ascii) : bool :=
  bool_decide (c = " "%char) || bool_decide (c = "009"%char)
  || bool_decide (c = newline) || bool_decide (c = "013"%char).

Fixpoint skip_whitespace (s : string) : string :=
  match s with
  | String c rest => if is_whitespace c then skip_whitespace rest else s
  | EmptyString => s
  end.

(** The loop of [JSONObject], from just after the opening quote of a key,
    for members whose value is a string.  [fuel] bounds the number of
    members; [json_loads] hands in the length of the text. *)
Fixpoint JSONObject_members (fuel : nat) (s : string) (pairs : snapshot)
  : result (snapshot * string) :=
  match fuel with
  | O => Raise (decode_error "Expecting value")
  | S fuel' =>
      '(key, s1) ← scanstring s;
      match skip_whitespace s1 with
      | String ":" s2 =>
          match skip_whitespace s2 with
          | String c s3 =>
              if decide (c = dquote) then
                '(value, s4) ← scanstring s3;
                let pairs' := <[key := value]> pairs in
                match skip_whitespace s4 with
                | String "}" s5 => Return (pairs', s5)
                | String "," s5 =>
                    match skip_whitespace s5 with
                    | String c' s6 =>
                        if decide (c' = dquote)
                        then JSONObject_members fuel' s6 pairs'
                        else Raise (decode_error
                               "Expecting property name enclosed in double quotes")
                    | EmptyString =>
                        Raise (decode_error
                          "Expecting property name enclosed in double quotes")
                    end
                | _ => Raise (decode_error "Expecting ',' delimiter")
                end
              else Raise (decode_error "Expecting value")
          | EmptyString => Raise (decode_error "Expecting value")
          end
      | _ => Raise (decode_error "Expecting ':' delimiter")
      end
  end.

(** [JSONObject], from just after the opening brace. *)
Definition JSONObject (s : string) : result (snapshot * string) :=
  match skip_whitespace s with
  | String "}" rest => Return (∅, rest)
  | String c rest =>
      if decide (c = dquote) then JSONObject_members (String.length s) rest ∅
      else Raise (decode_error "Expecting property name enclosed in double quotes")
  | EmptyString =>
      Raise (decode_error "Expecting property name enclosed in double quotes")
  end.

(** [json.loads(text)], for a text that holds an object of strings. *)
Definition json_loads (text : string) : result snapshot :=
  match skip_whitespace text with
  | String "{" rest =>
      '(obj, after) ← JSONObject rest;
      match skip_whitespace after with
      | EmptyString => Return obj
      | _ => Raise (decode_error "Extra data")
      end
  | _ => Raise (decode_error "Expecting value")
  end.

(** ** The hash database *)

Definition HASH_DB : string := "file_hashes.json".

(** [os.path.exists(path)]. *)
Definition os_path_exists (path : string) : M bool := λ w,
  (Return (bool_decide (is_Some (files w !! path))
           || bool_decide (is_Some (dirs w !! path))), w).

(** [open(path, "r")] and reading the whole text. *)
Definition open_r (path : string) : M string := λ w,
  match files w !! path with
  | Some (Data content) => (Return (String.string_of_list_byte content), w)
  | Some Denied =>
      (Raise (Exn PermissionError
                ("[Errno 13] Permission denied: '" +:+ path +:+ "'")), w)
  | None =>
      match dirs w !! path with
      | Some _ =>
          (Raise (Exn IsADirectoryError
                    ("[Errno 21] Is a directory: '" +:+ path +:+ "'")), w)
      | None =>
          (Raise (Exn FileNotFoundError
                    ("[Errno 2] No such file or directory: '" +:+ path +:+ "'")), w)
      end
  end.

(** [open(path, "w")] and writing the whole text. *)
Definition open_w (path text : string) : M unit := λ w,
  match files w !! path with
  | Some Denied =>
      (Raise (Exn PermissionError
                ("[Errno 13] Permission denied: '" +:+ path +:+ "'")), w)
  | _ =>
      match dirs w !! path with
      | Some _ =>
          (Raise (Exn IsADirectoryError
                    ("[Errno 21] Is a directory: '" +:+ path +:+ "'")), w)
      | None =>
          (Return tt,
           World (dirs w) (<[path := Data (String.list_byte_of_string text)]> (files w))
                 (stdout w))
      end
  end.

(** [load_hashes(db_path)]. *)
Definition load_hashes (db_path : string) : M snapshot :=
  found ← os_path_exists db_path;
  if negb found then mret ∅
  else text ← open_r db_path; lift (json_loads text).

(** [save_hashes(hashes, db_path)]. *)
Definition save_hashes (hashes : snapshot) (db_path : string) : M unit :=
  open_w db_path (json_dumps hashes).

(** ** The command line and [main] *)

(** What the operator typed: the directory, whether [--init] was given,
    and the value of [--algorithm] if that was given. *)
Record command_line : Type := CommandLine {
  cl_directory : string;
  cl_init : bool;
  cl_algorithm : option string
}.

(** The namespace [parser.parse_args()] returns. *)
Record namespace : Type := Namespace {
  directory : string;
  init : bool;
  algorithm : string
}.

(** The status with which the interpreter ends: 0 after a normal return,
    the code of a [SystemExit], 1 after any other uncaught exception. *)
Definition exit_status {A : Type} (r : result A) : Z :=
  match r with
  | Return _ => 0
  | Raise e =>
      match exn_cls e with
      | SystemExit code => code
      | _ => 1
      end
  end.

(** [if lst: body], for a list. *)
Definition when_nonempty {A : Type} (lst : list A) (body : M unit) : M unit :=
  match lst with
  | [] => mret tt
  | _ => body
  end.

(** [for f in lst: print(prefix + f)]. *)
Definition print_each (prefix : string) (lst : list string) : M unit :=
  for_each_io lst (λ _ f, print (prefix +:+ f)) tt.

Section Main.

Variable hashlib : hashlib_module.

(** [parser.parse_args()]: a value of [--algorithm] outside
    [choices=hashlib.algorithms_available] ends the program with status
    2; the default is not checked against the choices. *)
Definition parse_args (cl : command_line) : M namespace :=
  match cl_algorithm cl with
  | None => mret (Namespace (cl_directory cl) (cl_init cl) "sha256")
  | Some a =>
      if decide (a ∈ algorithms_available hashlib)
      then mret (Namespace (cl_directory cl) (cl_init cl) a)
      else raise (Exn (SystemExit 2)
                    ("argument --algorithm: invalid choice: '" +:+ a +:+ "'"))
  end.

(** [main()]. *)
Definition main (cl : command_line) : M unit :=
  args ← parse_args cl;
  if init args then
    print ("Initializing hash database for " +:+ directory args +:+ "...");;
    hashes ← scan_directory hashlib (directory args) (algorithm args);
    save_hashes hashes HASH_DB;;
    print "Initialization complete. Hash database saved."
  else
    print ("Checking file integrity in " +:+ directory args +:+ "...");;
    old_hashes ← load_hashes HASH_DB;
    new_hashes ← scan_directory hashlib (directory args) (algorithm args);
    '(added, removed, changed) ← lift (compare_hashes old_hashes new_hashes);
    match added, removed, changed with
    | [], [], [] => print "No file changes detected. All files are intact."
    | _, _, _ =>
        when_nonempty added
          (print "Added files:";; print_each "  + " added);;
        when_nonempty removed
          (print "Removed files:";; print_each "  - " removed);;
        when_nonempty changed
          (print "Modified files:";; print_each "  * " changed)
    end.

End Main.

(** ** Well-formed trees *)

Fixpoint no_sep (s : string) : bool :=
  match s with
  | EmptyString => true
  | String c s' => negb (bool_decide (c = sep)) && no_sep s'
  end.

(** A name as [os.scandir] delivers it: not empty, no separator in it. *)
Definition valid_name (name : string) : Prop :=
  name ≠ EmptyString ∧ no_sep name = true.

(** A tree as a file system holds it: in every directory the names are
    valid and no name occurs twice. *)
Inductive well_formed : node → Prop :=
  | wf_file : well_formed File
  | wf_unlistable : well_formed (Dir None)
  | wf_dir (entries : list (string * node)) :
      NoDup entries.*1 →
      Forall valid_name entries.*1 →
      Forall (λ e, well_formed e.2) entries →
      well_formed (Dir (Some entries)).

(** What [os.path.join(top, name)] puts before a relative [name]. *)
Definition path_prefix (top : string) : string :=
  if bool_decide (top = EmptyString) || endswith_sep top then top
  else top +:+ "/".

(** The paths of the files the walk of a tree hands over, in order. *)
Definition tree_files (top : string) (n : node) : list string :=
  flat_map (λ entry : walk_entry,
              let '(root, _, files) := entry in map (os_path_join root) files)
    (walk_node top n).

(** The same paths, entry by entry of a directory. *)
Definition entry_paths (top : string) (e : string * node) : list string :=
  if is_dir e.2 then tree_files (os_path_join top e.1) e.2
  else [os_path_join top e.1].

(** What may follow a name in a path below it: nothing, or a separator
    and more. *)
Definition path_tail (t : string) : Prop :=
  t = EmptyString ∨ ∃ r, t = String sep r.

(** ** Sample worlds *)

(** A stand-in digest: the sum of the bytes modulo 256, as one byte. *)
Definition sum_digest (data : list byte) : list byte :=
  match Strings.Byte.of_N
          (foldr (λ b acc, Strings.Byte.to_N b + acc)%N 0%N data mod 256) with
  | Some b => [b]
  | None => []
  end.

(** A small [hashlib]: one fixed-length algorithm, one of the [shake_*]
    kind, and the function [new], which wants an argument.  As on a CPython
    linked against OpenSSL, [algorithms_available] also lists a name, [sm3],
    for which the module has no attribute. *)
Definition sample_hashlib : hashlib_module :=
  Hashlib
    (λ name,
       if decide (name = "sha256") then Some (HashConstructor false sum_digest)
       else if decide (name = "shake_128") then Some (HashConstructor true sum_digest)
       else if decide (name = "new")
            then Some (OtherAttribute "new() missing 1 required positional argument: 'name'")
       else None)
    {["sha256"; "shake_128"; "sm3"]}.

Definition sample_tree : node :=
  Dir (Some [("a.txt", File);
             ("sub", Dir (Some [("b.txt", File); ("locked.txt", File)]));
             ("private", Dir None)]).

Definition bytes_of (s : string) : list byte := String.list_byte_of_string s.

(** A directory [data] with three files, one of which may not be opened,
    a directory [vault] that may not be listed, and no hash database. *)
Definition sample_world : world :=
  World {["data" := sample_tree; "vault" := Dir None]}
        {["data/a.txt" := Data (bytes_of "alpha");
          "data/sub/b.txt" := Data (bytes_of "beta");
          "data/sub/locked.txt" := Denied]}
        [].

Definition sample_snapshot : snapshot :=
  {["data/a.txt" := "06"; "data/sub/b.txt" := "9c"]}.

(** ** Reports and frames *)

(** The algorithm [main] works with: the value of [--algorithm], or the
    default. *)
Definition chosen_algorithm (cl : command_line) : string :=
  match cl_algorithm cl with
  | Some a => a
  | None => "sha256"
  end.

(** A command line that [parse_args] accepts. *)
Definition accepted (hashlib : hashlib_module) (cl : command_line) : Prop :=
  ∀ a, cl_algorithm cl = Some a → a ∈ algorithms_available hashlib.

(** The lines [main] prints for one class of paths: nothing for an empty
    class, else the header and one line for each path. *)
Definition report_section (header prefix : string) (paths : list string)
  : list string :=
  match paths with
  | [] => []
  | _ => header :: (String.append prefix <$> paths)
  end.

(** The lines [main] prints for the result of a comparison. *)
Definition report_lines (d : diff_result) : list string :=
  match added_of d, removed_of d, changed_of d with
  | [], [], [] => ["No file changes detected. All files are intact."]
  | added, removed, changed =>
      report_section "Added files:" "  + " added
      ++ report_section "Removed files:" "  - " removed
      ++ report_section "Modified files:" "  * " changed
  end.

(** Whether hashing a file returns a digest. *)
Definition hashed (hashlib : hashlib_module) (w : world)
    (algorithm file_path : string) : bool :=
  match hash_outcome hashlib w algorithm file_path with
  | Return _ => true
  | Raise _ => false
  end.

(** A computation that leaves directories and files as they are and only
    adds to what has been printed. *)
Definition read_only {A : Type} (m : M A) : Prop :=
  ∀ w, dirs (m w).2 = dirs w
       ∧ files (m w).2 = files w
       ∧ stdout w `prefix_of` stdout (m w).2.

(** A computation that may write the file at [path] and no other. *)
Definition writes_only (path : string) {A : Type} (m : M A) : Prop :=
  ∀ w, dirs (m w).2 = dirs w
       ∧ (∀ p, p ≠ path → files (m w).2 !! p = files w !! p)
       ∧ stdout w `prefix_of` stdout (m w).2.

#[global] Instance byte_eq_decision : EqDecision byte := Strings.Byte.byte_eq_dec.

(** The world after the content of one file has been replaced. *)
Definition with_content (w : world) (file_path : string) (content : list byte)
  : world :=
  World (dirs w) (<[file_path := Data content]> (files w)) (stdout w).

(** The sample world with a database that may not be opened. *)
Definition locked_world : world :=
  World (dirs sample_world) (<[HASH_DB := Denied]> (files sample_world)) [].

(** * Properties *)

(** ** The comparison loops *)

Lemma for_each_append (l acc : list string) :
  for_each l (λ added file, Return (append added file)) acc = Return (acc ++ l).
Proof.
  revert acc. induction l as [|x l IH]; intros acc; simpl.
  - by rewrite app_nil_r.
  - rewrite IH. unfold append. by rewrite <- app_assoc.
Qed.

Lemma for_each_changed (old new : snapshot) (l acc : list string) :
  (∀ p, p ∈ l → p ∈ dom old ∧ p ∈ dom new) →
  for_each l
    (λ changed file,
       o ← getitem old file;
       n ← getitem new file;
       if decide (o ≠ n) then Return (append changed file) else Return changed)
    acc
  = Return (acc ++ filter (λ p, old !! p ≠ new !! p) l).
Proof.
  revert acc. induction l as [|x l IH]; intros acc Hl; simpl.
  - by rewrite app_nil_r.
  - destruct (Hl x) as [[o Ho]%elem_of_dom [n Hn]%elem_of_dom]; [left|].
    unfold getitem at 1 2. rewrite Ho, Hn. simpl.
    rewrite filter_cons. rewrite Ho, Hn.
    assert (Hrest : ∀ p, p ∈ l → p ∈ dom old ∧ p ∈ dom new)
      by (intros p Hp; apply Hl; by right).
    destruct (decide (o ≠ n)) as [Hne|Heq].
    + rewrite decide_True by congruence.
      rewrite IH by done. unfold append. by rewrite <- app_assoc.
    + rewrite decide_False by (intros H; apply Heq; congruence).
      by rewrite IH.
Qed.

(** [compare_hashes] never raises, and its three lists are these. *)
Lemma compare_hashes_eq (old new : snapshot) :
  compare_hashes old new =
    Return (elements (dom new ∖ dom old),
            elements (dom old ∖ dom new),
            filter (λ p, old !! p ≠ new !! p) (elements (dom new ∩ dom old))).
Proof.
  unfold compare_hashes. rewrite !for_each_append. simpl.
  rewrite for_each_changed; [done|].
  intros p ?%elem_of_elements. set_solver.
Qed.

Lemma compare_hashes_added (old new : snapshot) (d : diff_result) (p : string) :
  compare_hashes old new = Return d →
  p ∈ added_of d ↔ p ∈ dom new ∧ p ∉ dom old.
Proof.
  rewrite compare_hashes_eq. intros [= <-]. unfold added_of; simpl.
  rewrite elem_of_elements. set_solver.
Qed.

Lemma compare_hashes_removed (old new : snapshot) (d : diff_result) (p : string) :
  compare_hashes old new = Return d →
  p ∈ removed_of d ↔ p ∈ dom old ∧ p ∉ dom new.
Proof.
  rewrite compare_hashes_eq. intros [= <-]. unfold removed_of; simpl.
  rewrite elem_of_elements. set_solver.
Qed.

Lemma compare_hashes_changed (old new : snapshot) (d : diff_result) (p : string) :
  compare_hashes old new = Return d →
  p ∈ changed_of d ↔ p ∈ dom old ∧ p ∈ dom new ∧ old !! p ≠ new !! p.
Proof.
  rewrite compare_hashes_eq. intros [= <-]. unfold changed_of; simpl.
  rewrite list_elem_of_filter, elem_of_elements. set_solver.
Qed.

(** C1: for every baseline and current snapshot [compare_hashes] returns
    three duplicate-free lists whose elements are exactly Added = keys of
    current minus keys of baseline, Removed = keys of baseline minus keys
    of current, and Changed = the common keys whose digests differ; a
    common key with equal digests is in none of them. *)
Theorem compare_hashes_sets (baseline current : snapshot) :
  ∃ added removed changed : list string,
    compare_hashes baseline current = Return (added, removed, changed)
    ∧ NoDup added ∧ NoDup removed ∧ NoDup changed
    ∧ list_to_set added = spec_added baseline current
    ∧ list_to_set removed = spec_removed baseline current
    ∧ list_to_set changed = spec_changed baseline current
    ∧ ∀ p, unchanged baseline current p →
           (p ∉ added) ∧ (p ∉ removed) ∧ (p ∉ changed).
Proof.
  pose proof (compare_hashes_eq baseline current) as Heq.
  eexists _, _, _. split; [exact Heq|].
  pose proof (λ p, compare_hashes_added _ _ _ p Heq) as HA.
  pose proof (λ p, compare_hashes_removed _ _ _ p Heq) as HR.
  pose proof (λ p, compare_hashes_changed _ _ _ p Heq) as HC.
  unfold added_of, removed_of, changed_of in *; simpl in *.
  split_and!.
  - apply NoDup_elements.
  - apply NoDup_elements.
  - apply NoDup_filter, NoDup_elements.
  - apply set_eq. intros p. rewrite elem_of_list_to_set, HA.
    unfold spec_added. set_solver.
  - apply set_eq. intros p. rewrite elem_of_list_to_set, HR.
    unfold spec_removed. set_solver.
  - apply set_eq. intros p. rewrite elem_of_list_to_set, HC.
    unfold spec_changed. rewrite elem_of_filter. set_solver.
  - intros p (Hb & Hc & Hsame). rewrite HA, HR, HC. naive_solver.
Qed.

(** C2: every path of the union of the two key sets falls into exactly one
    of the classes Added, Removed, Changed, unchanged: it is in at most
    one of the three returned lists, and in none exactly when both
    snapshots hold it with equal digests. *)
Theorem compare_hashes_classifies (baseline current : snapshot) (p : string) :
  p ∈ dom baseline ∪ dom current →
  ∃ d : diff_result,
    compare_hashes baseline current = Return d
    ∧ exactly_one (p ∈ added_of d) (p ∈ removed_of d) (p ∈ changed_of d)
        (unchanged baseline current p)
    ∧ (((p ∉ added_of d) ∧ (p ∉ removed_of d) ∧ (p ∉ changed_of d))
       ↔ unchanged baseline current p).
Proof.
  intros Hp. pose proof (compare_hashes_eq baseline current) as Heq.
  eexists. split; [exact Heq|].
  unfold exactly_one, unchanged.
  rewrite !(compare_hashes_added _ _ _ p Heq), !(compare_hashes_removed _ _ _ p Heq),
    !(compare_hashes_changed _ _ _ p Heq).
  apply elem_of_union in Hp.
  destruct (decide (p ∈ dom baseline)) as [Hb|Hb],
    (decide (p ∈ dom current)) as [Hc|Hc],
    (decide (baseline !! p = current !! p)) as [He|He]; naive_solver.
Qed.

(** C3: the three lists [compare_hashes] returns are pairwise disjoint. *)
Theorem compare_hashes_disjoint (baseline current : snapshot) :
  ∃ d : diff_result,
    compare_hashes baseline current = Return d
    ∧ (∀ p, ¬ (p ∈ added_of d ∧ p ∈ removed_of d))
    ∧ (∀ p, ¬ (p ∈ added_of d ∧ p ∈ changed_of d))
    ∧ (∀ p, ¬ (p ∈ removed_of d ∧ p ∈ changed_of d)).
Proof.
  pose proof (compare_hashes_eq baseline current) as Heq.
  eexists. split; [exact Heq|].
  pose proof (λ p, compare_hashes_added _ _ _ p Heq) as HA.
  pose proof (λ p, compare_hashes_removed _ _ _ p Heq) as HR.
  pose proof (λ p, compare_hashes_changed _ _ _ p Heq) as HC.
  split_and!; intros p [H1 H2].
  - apply HA in H1. apply HR in H2. tauto.
  - apply HA in H1. apply HC in H2. tauto.
  - apply HR in H1. apply HC in H2. tauto.
Qed.

(** The scenarios of the spec. *)

Example empty_baseline_scenario :
  compare_hashes ∅ {["a" := "h1"; "b" := "h2"]} = Return (["a"; "b"], [], []).
Proof. by vm_compute. Qed.

Example no_change_scenario :
  compare_hashes {["a" := "h1"]} {["a" := "h1"]} = Return ([], [], []).
Proof. by vm_compute. Qed.

Example pure_modification_scenario :
  compare_hashes {["a" := "h1"]} {["a" := "h2"]} = Return ([], [], ["a"]).
Proof. by vm_compute. Qed.

Example mixed_scenario :
  compare_hashes {["a" := "h1"; "b" := "h2"]} {["b" := "h2"; "c" := "h3"]}
  = Return (["c"], ["a"], []).
Proof. by vm_compute. Qed.

(** ** Strings *)

Lemma append_nil (t : string) : EmptyString +:+ t = t.
Proof. done. Qed.

Lemma append_cons (c : ascii) (s t : string) :
  String c s +:+ t = String c (s +:+ t).
Proof. done. Qed.

Lemma string_app_assoc (a b c : string) : (a +:+ b) +:+ c = a +:+ (b +:+ c).
Proof.
  induction a as [|x a IH]; [done|]. rewrite !append_cons. by f_equal.
Qed.

Ltac normalize_append :=
  repeat first [rewrite append_cons | rewrite append_nil
               | rewrite string_app_assoc].

(** The escape of one character is read back as that character. *)

Lemma string_length_app (s t : string) :
  String.length (s +:+ t) = (String.length s + String.length t)%nat.
Proof. induction s as [|c s IH]; simpl; [done|]. by rewrite IH. Qed.

Lemma string_app_nil_r (s : string) : s +:+ EmptyString = s.
Proof. induction s as [|c s IH]; [done|]. rewrite append_cons. by f_equal. Qed.

Lemma string_app_inv_head (a s t : string) : a +:+ s = a +:+ t → s = t.
Proof.
  induction a as [|c a IH]; [done|]. rewrite !append_cons. intros [= ?]. auto.
Qed.

(** ** Hashing a file *)

Lemma update_nil (h : hash_object) : update h [] = h.
Proof. destruct h. unfold update; simpl. by rewrite app_nil_r. Qed.

Lemma update_update (h : hash_object) (a b : list byte) :
  update (update h a) b = update h (a ++ b).
Proof. unfold update; simpl. by rewrite app_assoc. Qed.

(** However the reads cut the file, the hash object has absorbed all of it. *)
Lemma read_loop_all (size : nat) (f : list byte) (h : hash_object) :
  (1 ≤ size)%nat → read_loop size f h = update h f.
Proof.
  intros Hsize. funelim (read_loop size f h).
  - destruct size as [|size]; [lia|]. destruct f as [|b f]; [|discriminate].
    by rewrite update_nil.
  - match goal with IH : _ → read_loop _ _ _ = _ |- _ => rewrite IH by done end.
    rewrite update_update.
    match goal with E : take _ _ = _ :: _ |- _ => rewrite <- E end.
    by rewrite take_drop.
Qed.

Lemma hex_digit_lower (n : N) : is_lower_hex (hex_digit n) = true.
Proof.
  unfold hex_digit.
  repeat match goal with
         | |- context [match ?x with _ => _ end] => destruct x
         end; reflexivity.
Qed.

Lemma lowercase_hex_app (s t : string) :
  lowercase_hex (s +:+ t) = lowercase_hex s && lowercase_hex t.
Proof.
  induction s as [|c s IH]; simpl; [done|]. rewrite IH. by rewrite andb_assoc.
Qed.

Lemma hex_lowercase (bs : list byte) : lowercase_hex (hex bs) = true.
Proof.
  induction bs as [|b bs IH]; [done|].
  change (hex (b :: bs)) with (hex_of_byte b +:+ hex bs).
  rewrite lowercase_hex_app, IH. unfold hex_of_byte.
  cbn [lowercase_hex]. by rewrite !hex_digit_lower.
Qed.

Lemma unhex_hex_of_byte (b : byte) (t : string) :
  unhex (hex_of_byte b +:+ t) = (tail ← unhex t; Some (b :: tail)).
Proof. destruct b; reflexivity. Qed.

(** The hexadecimal text determines the bytes. *)
Lemma unhex_hex (bs : list byte) : unhex (hex bs) = Some bs.
Proof.
  induction bs as [|b bs IH]; [done|].
  change (hex (b :: bs)) with (hex_of_byte b +:+ hex bs).
  by rewrite unhex_hex_of_byte, IH.
Qed.

Lemma hex_length (bs : list byte) : String.length (hex bs) = (2 * length bs)%nat.
Proof.
  induction bs as [|b bs IH]; [done|].
  change (hex (b :: bs)) with (hex_of_byte b +:+ hex bs).
  rewrite string_length_app, IH. simpl. lia.
Qed.

Section MonitorProperties.

Variable hashlib : hashlib_module.

(** Hashing a file reads the world and leaves it as it was. *)
Lemma calculate_file_hash_sized_unfold (size : nat) (file_path algorithm : string)
    (w : world) :
  calculate_file_hash_sized hashlib size file_path algorithm w =
    (match getattr_call hashlib algorithm with
     | Return hash_func =>
         match files w !! file_path with
         | Some (Data f) => hexdigest (read_loop size f hash_func)
         | Some Denied =>
             Raise (Exn PermissionError
                      ("[Errno 13] Permission denied: '" +:+ file_path +:+ "'"))
         | None =>
             Raise (Exn FileNotFoundError
                      ("[Errno 2] No such file or directory: '"
                       +:+ file_path +:+ "'"))
         end
     | Raise e => Raise e
     end, w).
Proof.
  unfold calculate_file_hash_sized, mbind, M_bind, lift, open_rb.
  destruct (getattr_call hashlib algorithm) as [h|e]; [|done].
  destruct (files w !! file_path) as [[content|]|]; done.
Qed.

Lemma calculate_file_hash_eq (file_path algorithm : string) (w : world) :
  calculate_file_hash hashlib file_path algorithm w =
    (hash_outcome hashlib w algorithm file_path, w).
Proof.
  unfold hash_outcome, calculate_file_hash.
  by rewrite calculate_file_hash_sized_unfold.
Qed.

Lemma hash_outcome_files (w w' : world) (algorithm file_path : string) :
  files w = files w' →
  hash_outcome hashlib w algorithm file_path
  = hash_outcome hashlib w' algorithm file_path.
Proof.
  intros Hfiles. unfold hash_outcome, calculate_file_hash.
  rewrite !calculate_file_hash_sized_unfold. simpl. by rewrite Hfiles.
Qed.

(** Whatever hashing a file raises derives from [Exception]. *)
Lemma hash_outcome_is_Exception (w : world) (algorithm file_path : string)
    (e : exn) :
  hash_outcome hashlib w algorithm file_path = Raise e → is_Exception e = true.
Proof.
  unfold hash_outcome, calculate_file_hash.
  rewrite calculate_file_hash_sized_unfold. simpl.
  unfold getattr_call, hexdigest.
  destruct (hashlib_getattr hashlib algorithm) as [[xof digest|msg]|];
    [|by intros [= <-]..].
  destruct (files w !! file_path) as [[content|]|]; simpl;
    [|by intros [= <-]..].
  destruct (hash_xof _); by intros [= <-].
Qed.

(** One turn of the inner loop: a digest is stored, or the failure is
    printed and the dictionary stays as it was. *)
Lemma scan_file_eq (algorithm root : string) (file_hashes : snapshot)
    (name : string) (w : world) :
  scan_file hashlib algorithm root file_hashes name w =
    match hash_outcome hashlib w algorithm (os_path_join root name) with
    | Return digest =>
        (Return (<[os_path_join root name := digest]> file_hashes), w)
    | Raise e =>
        (Return file_hashes,
         World (dirs w) (files w)
           (stdout w ++ [error_line (os_path_join root name) e]))
    end.
Proof.
  unfold scan_file, try_except, mbind, M_bind.
  rewrite calculate_file_hash_eq.
  destruct (hash_outcome _ _ _ _) as [digest|e] eqn:Hout; [done|].
  by rewrite (hash_outcome_is_Exception _ _ _ _ Hout).
Qed.

Lemma scan_errors_cons (w : world) (algorithm p : string) (ps : list string) :
  scan_errors hashlib w algorithm (p :: ps) =
    match hash_outcome hashlib w algorithm p with
    | Return _ => scan_errors hashlib w algorithm ps
    | Raise e => error_line p e :: scan_errors hashlib w algorithm ps
    end.
Proof.
  unfold scan_errors; simpl. by destruct (hash_outcome hashlib w algorithm p).
Qed.

Lemma scan_fold_cons (w : world) (algorithm p : string) (ps : list string)
    (file_hashes : snapshot) :
  scan_fold hashlib w algorithm (p :: ps) file_hashes =
    scan_fold hashlib w algorithm ps
      match hash_outcome hashlib w algorithm p with
      | Return digest => <[p := digest]> file_hashes
      | Raise _ => file_hashes
      end.
Proof. done. Qed.

Lemma scan_errors_app (w : world) (algorithm : string) (l1 l2 : list string) :
  scan_errors hashlib w algorithm (l1 ++ l2)
  = scan_errors hashlib w algorithm l1 ++ scan_errors hashlib w algorithm l2.
Proof. unfold scan_errors. apply omap_app. Qed.

Lemma scan_fold_app (w : world) (algorithm : string) (l1 l2 : list string)
    (file_hashes : snapshot) :
  scan_fold hashlib w algorithm (l1 ++ l2) file_hashes
  = scan_fold hashlib w algorithm l2 (scan_fold hashlib w algorithm l1 file_hashes).
Proof. unfold scan_fold. apply foldl_app. Qed.

(** The inner loop, run in any world with the files of [w0]. *)
Lemma scan_files_eq (w0 : world) (algorithm root : string) (names : list string)
    (file_hashes : snapshot) (w : world) :
  files w = files w0 →
  for_each_io names (scan_file hashlib algorithm root) file_hashes w =
    (Return (scan_fold hashlib w0 algorithm (map (os_path_join root) names)
               file_hashes),
     World (dirs w) (files w)
       (stdout w
        ++ scan_errors hashlib w0 algorithm (map (os_path_join root) names))).
Proof.
  revert file_hashes w.
  induction names as [|name names IH]; intros file_hashes w Hfiles.
  - simpl. unfold scan_errors; simpl. rewrite app_nil_r. by destruct w.
  - cbn [for_each_io]. unfold mbind, M_bind. rewrite scan_file_eq.
    rewrite (hash_outcome_files w w0) by done.
    cbn [map]. rewrite scan_fold_cons, scan_errors_cons.
    destruct (hash_outcome hashlib w0 algorithm (os_path_join root name))
      as [digest|e].
    + by rewrite IH.
    + rewrite IH by done. simpl. by rewrite <- app_assoc.
Qed.

(** The outer loop. *)
Lemma scan_entries_eq (w0 : world) (algorithm : string)
    (walked : list walk_entry) (file_hashes : snapshot) (w : world) :
  files w = files w0 →
  for_each_io walked
    (λ file_hashes entry,
       let '(root, _, files) := entry in
       for_each_io files (scan_file hashlib algorithm root) file_hashes)
    file_hashes w =
    let paths :=
      flat_map (λ entry : walk_entry,
                  let '(root, _, files) := entry in
                  map (os_path_join root) files) walked in
    (Return (scan_fold hashlib w0 algorithm paths file_hashes),
     World (dirs w) (files w)
       (stdout w ++ scan_errors hashlib w0 algorithm paths)).
Proof.
  revert file_hashes w.
  induction walked as [|[[root dirnames] names] walked IH];
    intros file_hashes w Hfiles.
  - simpl. unfold scan_errors; simpl. rewrite app_nil_r. by destruct w.
  - cbn [for_each_io flat_map]. unfold mbind, M_bind.
    rewrite (scan_files_eq w0) by done.
    rewrite IH by done. cbn zeta. simpl.
    by rewrite scan_fold_app, scan_errors_app, <- app_assoc.
Qed.

(** [scan_directory] always returns: the dictionary built from the paths
    it walked, and one printed line for each file that failed. *)
Lemma scan_directory_eq (directory algorithm : string) (w : world) :
  scan_directory hashlib directory algorithm w =
    (Return (scan_fold hashlib w algorithm (walked_files w directory) ∅),
     World (dirs w) (files w)
       (stdout w ++ scan_errors hashlib w algorithm (walked_files w directory))).
Proof.
  unfold scan_directory, os_walk, mbind, M_bind.
  by rewrite (scan_entries_eq w).
Qed.

Lemma scan_fold_lookup (w : world) (algorithm : string) (paths : list string)
    (file_hashes : snapshot) (p : string) :
  scan_fold hashlib w algorithm paths file_hashes !! p =
    match hash_outcome hashlib w algorithm p with
    | Return digest => if decide (p ∈ paths) then Some digest else file_hashes !! p
    | Raise _ => file_hashes !! p
    end.
Proof.
  revert file_hashes.
  induction paths as [|q paths IH]; intros file_hashes.
  - unfold scan_fold; simpl. destruct (hash_outcome _ _ _ _); [|done].
    destruct (decide (p ∈ [])) as [Hin|_]; [|done]. by apply elem_of_nil in Hin.
  - rewrite scan_fold_cons, IH.
    destruct (hash_outcome hashlib w algorithm p) as [d|e] eqn:Hp.
    + destruct (decide (p ∈ paths)) as [Hin|Hnin].
      * rewrite decide_True; [done|]. by right.
      * destruct (decide (p = q)) as [->|Hne].
        -- rewrite Hp, lookup_insert_eq. rewrite decide_True; [done|]. by left.
        -- rewrite decide_False by (intros [?|?]%elem_of_cons; done).
           destruct (hash_outcome hashlib w algorithm q); [|done].
           by rewrite lookup_insert_ne.
    + destruct (decide (p = q)) as [->|Hne].
      * by rewrite Hp.
      * destruct (hash_outcome hashlib w algorithm q); [|done].
        by rewrite lookup_insert_ne.
Qed.

End MonitorProperties.

(** ** The paths of a well-formed tree are pairwise different *)

Lemma node_ind' (P : node → Prop) :
  P File →
  P (Dir None) →
  (∀ entries, Forall (λ e, P e.2) entries → P (Dir (Some entries))) →
  ∀ n, P n.
Proof.
  intros HFile HNone HDir.
  refine (fix IH (n : node) : P n :=
            match n with
            | File => HFile
            | Dir None => HNone
            | Dir (Some entries) =>
                HDir entries
                  ((fix go (es : list (string * node))
                      : Forall (λ e, P e.2) es :=
                      match es with
                      | [] => List.Forall_nil _
                      | e :: es' =>
                          @List.Forall_cons _ (λ e, P e.2) e es'
                            (match e with (_, child) => IH child end) (go es')
                      end) entries)
            end).
Qed.

Lemma startswith_sep_valid (name : string) :
  valid_name name → startswith_sep name = false.
Proof.
  intros [Hne Hsep]. destruct name as [|c name]; [done|].
  simpl in *. by destruct (bool_decide (c = sep)).
Qed.

Lemma os_path_join_valid (top name : string) :
  valid_name name → os_path_join top name = path_prefix top +:+ name.
Proof.
  intros Hname. unfold os_path_join, path_prefix.
  rewrite (startswith_sep_valid name Hname).
  destruct (bool_decide (top = EmptyString) || endswith_sep top); [done|].
  by rewrite string_app_assoc.
Qed.

Lemma endswith_sep_app (a name : string) :
  name ≠ EmptyString → endswith_sep (a +:+ name) = endswith_sep name.
Proof.
  intros Hname. induction a as [|c a IH]; [done|].
  rewrite append_cons. cbn [endswith_sep]. rewrite IH.
  destruct (a +:+ name) eqn:E; [|done].
  destruct a; [|done]. by destruct name.
Qed.

Lemma endswith_sep_no_sep (name : string) :
  no_sep name = true → endswith_sep name = false.
Proof.
  induction name as [|c name IH]; [done|]. cbn [no_sep endswith_sep].
  intros [Hc Hname]%andb_true_iff. destruct name as [|c' name].
  - by destruct (bool_decide (c = sep)).
  - by apply IH.
Qed.

Lemma path_prefix_join (top name : string) :
  valid_name name →
  path_prefix (path_prefix top +:+ name) = path_prefix top +:+ name +:+ "/".
Proof.
  intros [Hne Hsep]. unfold path_prefix at 1.
  rewrite endswith_sep_app, (endswith_sep_no_sep name) by done.
  rewrite bool_decide_eq_false_2; [by rewrite string_app_assoc|].
  destruct (path_prefix top); [by destruct name|done].
Qed.

Lemma tree_files_dir (top : string) (entries : list (string * node)) :
  tree_files top (Dir (Some entries)) =
    map (os_path_join top) (filter (λ e, is_dir e.2 = false) entries).*1
    ++ flat_map (λ e, if is_dir e.2
                      then tree_files (os_path_join top e.1) e.2
                      else []) entries.
Proof.
  unfold tree_files. cbn [walk_node flat_map]. f_equal.
  induction entries as [|e entries IH]; [done|].
  cbn [flat_map]. rewrite flat_map_app, IH. by destruct (is_dir e.2).
Qed.

Lemma tree_files_entries (top : string) (entries : list (string * node)) :
  tree_files top (Dir (Some entries)) ≡ₚ flat_map (entry_paths top) entries.
Proof.
  rewrite tree_files_dir.
  induction entries as [|[name child] entries IH]; [done|].
  cbn [flat_map]. unfold entry_paths at 1. rewrite filter_cons. simpl.
  destruct (is_dir child); simpl.
  - rewrite <- IH. by rewrite Permutation_app_swap_app.
  - by rewrite <- IH.
Qed.

(** Every path below [top] starts with what [os.path.join] puts before a
    name. *)
Lemma tree_files_prefix (n : node) :
  well_formed n →
  ∀ top p, p ∈ tree_files top n → ∃ rest, p = path_prefix top +:+ rest.
Proof.
  induction n as [| |entries IH] using node_ind'; intros Hwf top p Hp.
  - by apply elem_of_nil in Hp.
  - by apply elem_of_nil in Hp.
  - inversion Hwf as [| |? Hnodup Hvalid Hchildren]; subst.
    rewrite tree_files_entries in Hp.
    apply list_elem_of_In, in_flat_map in Hp as ([name child] & He & Hp).
    apply list_elem_of_In in He, Hp.
    assert (Hname : valid_name name).
    { rewrite Forall_forall in Hvalid. apply Hvalid.
      apply (list_elem_of_fmap_2 fst _ (name, child)), He. }
    unfold entry_paths in Hp. simpl in Hp. destruct (is_dir child).
    + rewrite Forall_forall in IH, Hchildren.
      destruct (IH _ He (Hchildren _ He) _ _ Hp) as [rest ->].
      rewrite os_path_join_valid, path_prefix_join by done.
      exists (name +:+ "/" +:+ rest). by rewrite !string_app_assoc.
    + apply list_elem_of_singleton in Hp as ->.
      rewrite os_path_join_valid by done. eauto.
Qed.

(** Below an entry, every path is the prefix, the name of the entry, and
    nothing or a separator and more. *)
Lemma entry_paths_shape (top : string) (e : string * node) (p : string) :
  valid_name e.1 →
  well_formed e.2 →
  p ∈ entry_paths top e →
  ∃ tail, p = path_prefix top +:+ e.1 +:+ tail ∧ path_tail tail.
Proof.
  destruct e as [name child]. simpl. intros Hname Hwf Hp.
  unfold entry_paths in Hp. simpl in Hp. destruct (is_dir child).
  - destruct (tree_files_prefix child Hwf _ _ Hp) as [rest ->].
    rewrite os_path_join_valid, path_prefix_join by done.
    exists ("/" +:+ rest). split; [by rewrite !string_app_assoc|].
    right. by exists rest.
  - apply list_elem_of_singleton in Hp as ->.
    rewrite os_path_join_valid by done.
    exists EmptyString. split; [|by left].
    by rewrite string_app_nil_r.
Qed.

(** Two names followed by path tails agree only if the names do. *)
Lemma name_tail_inj (a b t t' : string) :
  no_sep a = true → no_sep b = true →
  path_tail t → path_tail t' →
  a +:+ t = b +:+ t' → a = b.
Proof.
  revert b. induction a as [|c a IH]; intros b Ha Hb Ht Ht' Heq.
  - destruct b as [|c' b]; [done|]. rewrite append_nil, append_cons in Heq.
    cbn [no_sep] in Hb. apply andb_true_iff in Hb as [Hc' _].
    destruct Ht as [->|[r ->]]; [done|].
    injection Heq as <- _. by rewrite bool_decide_eq_true_2 in Hc'.
  - cbn [no_sep] in Ha. apply andb_true_iff in Ha as [Hc Ha].
    destruct b as [|c' b].
    + rewrite append_nil, append_cons in Heq.
      destruct Ht' as [->|[r ->]]; [done|].
      injection Heq as -> _. by rewrite bool_decide_eq_true_2 in Hc.
    + rewrite !append_cons in Heq. injection Heq as -> Heq.
      cbn [no_sep] in Hb. apply andb_true_iff in Hb as [_ Hb].
      f_equal. by apply (IH b).
Qed.

Lemma entry_paths_disjoint (top : string) (e e' : string * node) (p : string) :
  valid_name e.1 → valid_name e'.1 →
  well_formed e.2 → well_formed e'.2 →
  p ∈ entry_paths top e → p ∈ entry_paths top e' → e.1 = e'.1.
Proof.
  intros Hname Hname' Hwf Hwf' Hp Hp'.
  destruct (entry_paths_shape top e p Hname Hwf Hp) as (t & -> & Ht).
  destruct (entry_paths_shape top e' _ Hname' Hwf' Hp') as (t' & Heq & Ht').
  apply string_app_inv_head in Heq.
  destruct Hname as [_ Hsep], Hname' as [_ Hsep'].
  by apply (name_tail_inj _ _ t t').
Qed.

(** The walk of a well-formed tree hands over no path twice. *)
Lemma tree_files_NoDup (n : node) :
  well_formed n → ∀ top, NoDup (tree_files top n).
Proof.
  induction n as [| |entries IH] using node_ind'; intros Hwf top.
  - apply NoDup_nil_2.
  - apply NoDup_nil_2.
  - inversion Hwf as [| |? Hnodup Hvalid Hchildren]; subst.
    rewrite tree_files_entries.
    induction entries as [|[name child] entries IHentries]; [apply NoDup_nil_2|].
    rewrite fmap_cons in Hnodup, Hvalid.
    apply NoDup_cons in Hnodup as [Hfresh Hnodup].
    apply Forall_cons in Hvalid as [Hname Hvalid].
    apply Forall_cons in Hchildren as [Hchild Hchildren].
    apply Forall_cons in IH as [IHchild IH].
    cbn [flat_map]. apply NoDup_app. split_and!.
    + unfold entry_paths. simpl. destruct (is_dir child).
      * by apply IHchild.
      * apply NoDup_singleton.
    + intros p Hp Hp'.
      apply list_elem_of_In, in_flat_map in Hp' as (e' & He' & Hp').
      apply list_elem_of_In in He', Hp'.
      rewrite Forall_forall in Hvalid. rewrite Forall_forall in Hchildren.
      assert (Hname' : valid_name e'.1).
      { apply Hvalid. by apply (list_elem_of_fmap_2 fst). }
      apply Hfresh.
      assert (Heq : name = e'.1)
        by (apply (entry_paths_disjoint top (name, child) e' p); auto).
      simpl. rewrite Heq. by apply (list_elem_of_fmap_2 fst).
    + apply IHentries; try done. by constructor.
Qed.

Lemma walked_files_NoDup (w : world) (directory : string) :
  (∀ n, dirs w !! directory = Some n → well_formed n) →
  NoDup (walked_files w directory).
Proof.
  intros Hwf. unfold walked_files.
  destruct (dirs w !! directory) as [n|]; [|apply NoDup_nil_2].
  by apply (tree_files_NoDup n), Hwf.
Qed.

Lemma read_size_positive : (1 ≤ 8192)%nat.
Proof. apply Nat.leb_le. vm_compute. reflexivity. Qed.

Section ScanProperties.

Variable hashlib : hashlib_module.

Lemma hash_outcome_readable (w : world) (algorithm file_path : string)
    (digest : list byte → list byte) (content : list byte) :
  hashlib_getattr hashlib algorithm = Some (HashConstructor false digest) →
  files w !! file_path = Some (Data content) →
  hash_outcome hashlib w algorithm file_path = Return (hex (digest content)).
Proof.
  intros Halg Hfile. unfold hash_outcome, calculate_file_hash.
  rewrite calculate_file_hash_sized_unfold. simpl.
  unfold getattr_call. rewrite Halg, Hfile.
  rewrite read_loop_all by apply read_size_positive. unfold hexdigest, update; simpl. done.
Qed.

Lemma hash_outcome_unreadable (w : world) (algorithm file_path : string)
    (xof : bool) (digest : list byte → list byte) :
  hashlib_getattr hashlib algorithm = Some (HashConstructor xof digest) →
  (∀ content, files w !! file_path ≠ Some (Data content)) →
  ∃ e, open_rb file_path w = (Raise e, w)
       ∧ hash_outcome hashlib w algorithm file_path = Raise e.
Proof.
  intros Halg Hfile. unfold hash_outcome, calculate_file_hash.
  rewrite calculate_file_hash_sized_unfold. simpl.
  unfold getattr_call, open_rb. rewrite Halg.
  destruct (files w !! file_path) as [[content|]|]; [|eauto..].
  by destruct (Hfile content).
Qed.

Lemma hash_outcome_unknown (w : world) (algorithm file_path : string) :
  hashlib_getattr hashlib algorithm = None →
  hash_outcome hashlib w algorithm file_path =
    Raise (unknown_attribute algorithm).
Proof.
  intros Halg. unfold hash_outcome, calculate_file_hash.
  rewrite calculate_file_hash_sized_unfold. simpl.
  unfold getattr_call. by rewrite Halg.
Qed.

Lemma scan_errors_none (w : world) (algorithm : string) (paths : list string) :
  (∀ p, p ∈ paths → ∃ d, hash_outcome hashlib w algorithm p = Return d) →
  scan_errors hashlib w algorithm paths = [].
Proof.
  induction paths as [|q paths IH]; intros Hall; [done|].
  rewrite scan_errors_cons.
  destruct (Hall q) as [d ->]; [by left|].
  apply IH. intros p Hp. apply Hall. by right.
Qed.

Lemma scan_errors_single (w : world) (algorithm : string) (paths : list string)
    (bad : string) (e : exn) :
  NoDup paths →
  bad ∈ paths →
  hash_outcome hashlib w algorithm bad = Raise e →
  (∀ p, p ∈ paths → p ≠ bad →
        ∃ d, hash_outcome hashlib w algorithm p = Return d) →
  scan_errors hashlib w algorithm paths = [error_line bad e].
Proof.
  induction paths as [|q paths IH]; intros Hnodup Hbad Hraise Hothers.
  - by apply elem_of_nil in Hbad.
  - apply NoDup_cons in Hnodup as [Hq Hnodup].
    rewrite scan_errors_cons.
    destruct (decide (q = bad)) as [->|Hne].
    + rewrite Hraise. f_equal. apply scan_errors_none.
      intros p Hp. apply Hothers; [by right|]. by intros ->.
    + destruct (Hothers q) as [d ->]; [by left|done|].
      apply IH; [done| |done|].
      * apply elem_of_cons in Hbad as [->|?]; done.
      * intros p Hp. apply Hothers. by right.
Qed.

Lemma scan_errors_all (w : world) (algorithm : string) (paths : list string)
    (e : exn) :
  (∀ p, p ∈ paths → hash_outcome hashlib w algorithm p = Raise e) →
  scan_errors hashlib w algorithm paths = (λ p, error_line p e) <$> paths.
Proof.
  induction paths as [|q paths IH]; intros Hall; [done|].
  rewrite scan_errors_cons, (Hall q) by (by left).
  rewrite fmap_cons. f_equal. apply IH. intros p Hp. apply Hall. by right.
Qed.

(** One failure among the paths of a walk that hands over no path twice. *)
Lemma scan_directory_one_failure (w : world) (directory algorithm : string)
    (digest : list byte → list byte) (bad : string) :
  hashlib_getattr hashlib algorithm = Some (HashConstructor false digest) →
  NoDup (walked_files w directory) →
  bad ∈ walked_files w directory →
  (∀ content, files w !! bad ≠ Some (Data content)) →
  (∀ p, p ∈ walked_files w directory → p ≠ bad →
        ∃ content, files w !! p = Some (Data content)) →
  ∃ (file_hashes : snapshot) (e : exn),
    scan_directory hashlib directory algorithm w =
      (Return file_hashes,
       World (dirs w) (files w) (stdout w ++ [error_line bad e]))
    ∧ open_rb bad w = (Raise e, w)
    ∧ size file_hashes = (length (walked_files w directory) - 1)%nat
    ∧ dom file_hashes = list_to_set (walked_files w directory) ∖ {[bad]}
    ∧ ∀ p content,
        p ∈ walked_files w directory →
        files w !! p = Some (Data content) →
        file_hashes !! p = Some (hex (digest content)).
Proof.
  intros Halg Hnodup Hbad Hunreadable Hothers.
  destruct (hash_outcome_unreadable w algorithm bad _ _ Halg Hunreadable)
    as (e & Hopen & Hraise).
  exists (scan_fold hashlib w algorithm (walked_files w directory) ∅), e.
  assert (Hgood : ∀ p, p ∈ walked_files w directory → p ≠ bad →
            ∃ d, hash_outcome hashlib w algorithm p = Return d).
  { intros p Hp Hne. destruct (Hothers p Hp Hne) as [content Hc].
    eexists. by apply hash_outcome_readable. }
  assert (Hdom : dom (scan_fold hashlib w algorithm (walked_files w directory) ∅)
                 = list_to_set (walked_files w directory) ∖ {[bad]}).
  { apply set_eq. intros p.
    rewrite elem_of_dom, scan_fold_lookup, lookup_empty.
    rewrite elem_of_difference, elem_of_list_to_set, not_elem_of_singleton.
    destruct (decide (p = bad)) as [->|Hne].
    - rewrite Hraise. split; [by intros [? ?]|by intros [_ ?]].
    - destruct (decide (p ∈ walked_files w directory)) as [Hin|Hnin].
      + destruct (Hgood p Hin Hne) as [d ->]. split; [done|eauto].
      + destruct (hash_outcome hashlib w algorithm p);
          (split; [by intros [? ?]|by intros [? _]]). }
  split_and!.
  - rewrite scan_directory_eq.
    by rewrite (scan_errors_single w algorithm _ bad e).
  - done.
  - rewrite <- size_dom, Hdom.
    rewrite size_difference by set_solver.
    by rewrite size_singleton, size_list_to_set.
  - done.
  - intros p content Hp Hc. rewrite scan_fold_lookup.
    rewrite (hash_outcome_readable w algorithm p digest content) by done.
    by rewrite decide_True.
Qed.




End ScanProperties.

(** ** The JSON text read back *)

Lemma scanstring_escape_char (c : ascii) (t : string) :
  scanstring (escape_char c +:+ t) =
    match scanstring t with
    | Return (tail, after) => Return (String c tail, after)
    | Raise e => Raise e
    end.
Proof.
  destruct c as [[] [] [] [] [] [] [] []]; reflexivity.
Qed.

Lemma scanstring_escape (s rest : string) :
  scanstring (escape s +:+ String dquote rest) = Return (s, rest).
Proof.
  induction s as [|c s IH]; [done|].
  cbn [escape]. rewrite string_app_assoc, scanstring_escape_char. by rewrite IH.
Qed.

(** An item followed by [rest], with every append to the right. *)
Lemma json_item_app (kv : string * string) (rest : string) :
  json_item kv +:+ rest =
    String dquote
      (escape kv.1
       +:+ String dquote
             (String ":" (String " "
                (String dquote (escape kv.2 +:+ String dquote rest))))).
Proof.
  unfold json_item, encode_basestring_ascii.
  by normalize_append.
Qed.

Lemma json_items_one (kv : string * string) (rest : string) :
  json_items [kv] +:+ rest = json_item kv +:+ rest.
Proof. done. Qed.

Lemma json_items_more (kv kv' : string * string)
    (items : list (string * string)) (rest : string) :
  json_items (kv :: kv' :: items) +:+ rest =
    json_item kv +:+ (item_separator +:+ (json_items (kv' :: items) +:+ rest)).
Proof.
  change (json_items (kv :: kv' :: items))
    with (json_item kv +:+ item_separator +:+ json_items (kv' :: items)).
  by rewrite !string_app_assoc.
Qed.

(** One turn of the loop of [JSONObject] on an item that [json.dumps] wrote:
    the pair is stored and the loop looks at what follows the item. *)
Lemma JSONObject_members_item (fuel : nat) (k v rest : string) (pairs : snapshot) :
  JSONObject_members (S fuel)
    (escape k
     +:+ String dquote
           (String ":" (String " "
              (String dquote (escape v +:+ String dquote rest)))))
    pairs =
    match skip_whitespace rest with
    | String "}" s5 => Return (<[k := v]> pairs, s5)
    | String "," s5 =>
        match skip_whitespace s5 with
        | String c' s6 =>
            if decide (c' = dquote)
            then JSONObject_members fuel s6 (<[k := v]> pairs)
            else Raise (decode_error
                   "Expecting property name enclosed in double quotes")
        | EmptyString =>
            Raise (decode_error
              "Expecting property name enclosed in double quotes")
        end
    | _ => Raise (decode_error "Expecting ',' delimiter")
    end.
Proof.
  cbn [JSONObject_members]. rewrite scanstring_escape.
  cbn [mbind result_bind]. 
  change (skip_whitespace (String ":" (String " "
            (String dquote (escape v +:+ String dquote rest)))))
    with (String ":" (String " "
            (String dquote (escape v +:+ String dquote rest)))).
  cbv iota beta.
  change (skip_whitespace (String " "
            (String dquote (escape v +:+ String dquote rest))))
    with (String dquote (escape v +:+ String dquote rest)).
  cbv iota beta.
  rewrite decide_True by done.
  rewrite scanstring_escape. reflexivity.
Qed.

Lemma json_items_head (kv : string * string) (items : list (string * string)) :
  ∃ s, json_items (kv :: items) = String dquote s.
Proof.
  destruct items as [|kv' items]; cbn [json_items];
    unfold json_item, encode_basestring_ascii; rewrite !append_cons; eauto.
Qed.

(** The loop of [JSONObject] reads back the items [json.dumps] wrote. *)
Lemma JSONObject_members_items (items : list (string * string)) :
  ∀ (kv : string * string) (fuel : nat) (pairs : snapshot) (tail s : string),
    (length items < fuel)%nat →
    String dquote s
    = json_items (kv :: items) +:+ String newline (String "}" tail) →
    JSONObject_members fuel s pairs
    = Return (insert_pairs (kv :: items) pairs, tail).
Proof.
  induction items as [|kv' items IH]; intros [k v] fuel pairs tail s Hfuel Hs;
    (destruct fuel as [|fuel]; [lia|]).
  - rewrite json_items_one, json_item_app in Hs. injection Hs as ->.
    rewrite JSONObject_members_item. reflexivity.
  - destruct (json_items_head kv' items) as [s0 Hs0].
    rewrite json_items_more, json_item_app, Hs0 in Hs. injection Hs as ->.
    rewrite JSONObject_members_item.
    unfold item_separator. normalize_append.
    cbn -[JSONObject_members insert_pairs String.append].
    change (insert_pairs ((k, v) :: kv' :: items) pairs)
      with (insert_pairs (kv' :: items) (<[k := v]> pairs)).
    apply IH; [simpl in Hfuel; lia|]. by rewrite Hs0.
Qed.

Lemma json_items_length (items : list (string * string)) :
  (length items ≤ String.length (json_items items))%nat.
Proof.
  induction items as [|kv [|kv' items] IH]; [done|simpl; lia|].
  change (json_items (kv :: kv' :: items))
    with (json_item kv +:+ item_separator +:+ json_items (kv' :: items)).
  rewrite !string_length_app. unfold json_item, encode_basestring_ascii.
  simpl in *. lia.
Qed.

Lemma insert_pairs_lookup (items : list (string * string)) (pairs : snapshot)
    (k : string) :
  NoDup items.*1 →
  insert_pairs items pairs !! k =
    match (list_to_map items : snapshot) !! k with
    | Some v => Some v
    | None => pairs !! k
    end.
Proof.
  revert pairs. induction items as [|[k0 v0] items IH]; intros pairs Hnodup.
  - unfold insert_pairs. simpl. by rewrite lookup_empty.
  - rewrite fmap_cons in Hnodup. apply NoDup_cons in Hnodup as [Hk0 Hnodup].
    change (insert_pairs ((k0, v0) :: items) pairs)
      with (insert_pairs items (<[k0 := v0]> pairs)).
    rewrite IH by done. rewrite list_to_map_cons.
    destruct (decide (k = k0)) as [->|Hne].
    + rewrite (not_elem_of_list_to_map_1 items k0) by done.
      by rewrite !lookup_insert_eq.
    + by rewrite !lookup_insert_ne.
Qed.

Lemma skip_whitespace_indent (s : string) :
  skip_whitespace
    (String newline (String " " (String " " (String " " (String " "
       (String dquote s))))))
  = String dquote s.
Proof. reflexivity. Qed.

(** [json.loads] reads back what [json.dumps] wrote, whatever the order of
    the items. *)
Lemma json_loads_dumps_items (items : list (string * string)) :
  json_loads (json_dumps_items items) = Return (insert_pairs items ∅).
Proof.
  destruct items as [|kv items]; [done|].
  unfold json_dumps_items.
  pose proof (json_items_length (kv :: items)) as Hlen.
  destruct (json_items_head kv items) as [s0 Hs0].
  assert (Hmembers :
    JSONObject_members
      (String.length
         (String newline (String " " (String " " (String " " (String " "
            (String dquote (s0 +:+ String newline "}")))))))) 
      (s0 +:+ String newline "}") ∅
    = Return (insert_pairs (kv :: items) ∅, EmptyString)).
  { apply JSONObject_members_items.
    - rewrite Hs0 in Hlen. simpl in *. rewrite string_length_app. lia.
    - by rewrite Hs0. }
  rewrite Hs0. normalize_append.
  unfold json_loads.
  change (skip_whitespace (String "{" ?s)) with (String "{" s).
  cbv iota beta. unfold JSONObject.
  rewrite skip_whitespace_indent. cbv iota beta.
  rewrite decide_True by done. rewrite Hmembers. reflexivity.
Qed.

Lemma insert_pairs_map_to_list (hashes : snapshot) :
  insert_pairs (map_to_list hashes) ∅ = hashes.
Proof.
  apply map_eq. intros k.
  rewrite insert_pairs_lookup by apply NoDup_fst_map_to_list.
  rewrite list_to_map_to_list, lookup_empty. by destruct (hashes !! k).
Qed.

(** The JSON text of a snapshot is read back as that snapshot. *)
Lemma json_loads_dumps (hashes : snapshot) :
  json_loads (json_dumps hashes) = Return hashes.
Proof.
  unfold json_dumps. by rewrite json_loads_dumps_items, insert_pairs_map_to_list.
Qed.

(** ** The hash database *)

Lemma load_hashes_absent (db_path : string) (w : world) :
  files w !! db_path = None →
  dirs w !! db_path = None →
  load_hashes db_path w = (Return ∅, w).
Proof.
  intros Hfile Hdir. unfold load_hashes, os_path_exists, mbind, M_bind.
  by rewrite Hfile, Hdir.
Qed.

Lemma load_hashes_present (db_path : string) (content : list byte) (w : world) :
  files w !! db_path = Some (Data content) →
  load_hashes db_path w
  = (json_loads (String.string_of_list_byte content), w).
Proof.
  intros Hfile. unfold load_hashes, os_path_exists, open_r, lift, mbind, M_bind.
  rewrite Hfile. simpl. by rewrite Hfile.
Qed.

Lemma save_hashes_written (hashes : snapshot) (db_path : string) (w : world) :
  files w !! db_path ≠ Some Denied →
  dirs w !! db_path = None →
  save_hashes hashes db_path w =
    (Return tt,
     World (dirs w)
       (<[db_path := Data (String.list_byte_of_string (json_dumps hashes))]>
          (files w))
       (stdout w)).
Proof.
  intros Hfile Hdir. unfold save_hashes, open_w. rewrite Hdir.
  by destruct (files w !! db_path) as [[content|]|].
Qed.

(** C8: without a file (or anything else) at the location of the database,
    [load_hashes] returns the empty snapshot and raises nothing; compared
    with it, every path of the current snapshot is Added and none is
    Removed or Changed. *)
Theorem load_hashes_no_baseline (db_path : string) (w : world)
    (current : snapshot) :
  files w !! db_path = None →
  dirs w !! db_path = None →
  load_hashes db_path w = (Return ∅, w)
  ∧ ∃ added : list string,
      compare_hashes ∅ current = Return (added, [], [])
      ∧ NoDup added
      ∧ list_to_set added = dom current.
Proof.
  intros Hfile Hdir. split; [by apply load_hashes_absent|].
  exists (elements (dom current)). split_and!.
  - rewrite compare_hashes_eq, dom_empty_L.
    replace (dom current ∖ ∅) with (dom current) by set_solver.
    replace (∅ ∖ dom current) with (∅ : gset string) by set_solver.
    replace (dom current ∩ ∅) with (∅ : gset string) by set_solver.
    by rewrite elements_empty.
  - apply NoDup_elements.
  - apply list_to_set_elements_L.
Qed.


(** ** The whole program *)

Lemma world_eta (w : world) : World (dirs w) (files w) (stdout w ++ []) = w.
Proof. destruct w. simpl. by rewrite app_nil_r. Qed.

Lemma print_each_eq (prefix : string) (lst : list string) (w : world) :
  print_each prefix lst w =
    (Return tt,
     World (dirs w) (files w) (stdout w ++ (String.append prefix <$> lst))).
Proof.
  unfold print_each. revert w.
  induction lst as [|f lst IH]; intros w.
  - simpl. by rewrite world_eta.
  - cbn [for_each_io]. unfold mbind, M_bind, print at 1. rewrite IH. simpl.
    unfold append. by rewrite <- app_assoc.
Qed.

(** Reading the database looks at the files and directories only and
    changes nothing. *)
Lemma load_hashes_read_only (db_path : string) (w : world) (r : result snapshot)
    (w' : world) :
  load_hashes db_path w = (r, w') →
  w' = w
  ∧ ∀ out, load_hashes db_path (World (dirs w) (files w) out)
           = (r, World (dirs w) (files w) out).
Proof.
  unfold load_hashes, os_path_exists, open_r, lift, mbind, M_bind. simpl.
  destruct (files w !! db_path) as [[content|]|] eqn:Hf;
    [| |destruct (dirs w !! db_path) eqn:Hd];
    simpl; rewrite ?Hf, ?Hd; intros [= <- <-]; done.
Qed.

(** Where nothing can be listed, nothing is walked. *)
Lemma walked_files_unlistable (w : world) (directory : string) :
  dirs w !! directory = None ∨ dirs w !! directory = Some (Dir None) →
  walked_files w directory = [].
Proof. unfold walked_files. by intros [-> | ->]. Qed.

Section MainProperties.

Variable hashlib : hashlib_module.

Lemma parse_args_accepts (cl : command_line) (w : world) :
  (∀ a, cl_algorithm cl = Some a → a ∈ algorithms_available hashlib) →
  ∃ algorithm,
    parse_args hashlib cl w =
      (Return (Namespace (cl_directory cl) (cl_init cl) algorithm), w).
Proof.
  intros Hchoice. unfold parse_args.
  destruct (cl_algorithm cl) as [a|]; [|by eexists].
  rewrite decide_True by auto. by eexists.
Qed.

Lemma scan_directory_unlistable (w : world) (directory algorithm : string) :
  dirs w !! directory = None ∨ dirs w !! directory = Some (Dir None) →
  scan_directory hashlib directory algorithm w = (Return ∅, w).
Proof.
  intros Hroot. rewrite scan_directory_eq.
  rewrite (walked_files_unlistable w directory Hroot).
  unfold scan_fold, scan_errors. simpl. by rewrite world_eta.
Qed.



End MainProperties.

(** ** The properties at work on the sample world *)

Lemma sample_tree_well_formed : well_formed sample_tree.
Proof.
  assert (Hname : ∀ name, name ≠ EmptyString → no_sep name = true →
                          valid_name name) by (by split).
  repeat first [apply wf_dir | apply wf_file | apply wf_unlistable
               | apply (bool_decide_unpack _); by vm_compute
               | apply List.Forall_cons | apply List.Forall_nil
               | apply Hname; [discriminate|reflexivity] ].
Qed.

Lemma sample_walked_files :
  walked_files sample_world "data"
  = ["data/a.txt"; "data/sub/b.txt"; "data/sub/locked.txt"].
Proof. by vm_compute. Qed.

(** C2 at work: a path whose digest changed. *)
Lemma compare_hashes_classifies_witness :
  ∃ d : diff_result,
    compare_hashes sample_snapshot {["data/a.txt" := "ff"]} = Return d
    ∧ exactly_one ("data/a.txt" ∈ added_of d) ("data/a.txt" ∈ removed_of d)
        ("data/a.txt" ∈ changed_of d)
        (unchanged sample_snapshot {["data/a.txt" := "ff"]} "data/a.txt")
    ∧ ((("data/a.txt" ∉ added_of d) ∧ ("data/a.txt" ∉ removed_of d)
        ∧ ("data/a.txt" ∉ changed_of d))
       ↔ unchanged sample_snapshot {["data/a.txt" := "ff"]} "data/a.txt").
Proof.
  apply compare_hashes_classifies. unfold sample_snapshot. set_solver.
Defined.



Example sample_file_digest :
  calculate_file_hash sample_hashlib "data/a.txt" "sha256" sample_world
  = (Return "06", sample_world).
Proof. by vm_compute. Qed.





(** C8 at work: the sample world has no database. *)
Lemma load_hashes_no_baseline_witness :
  load_hashes HASH_DB sample_world = (Return ∅, sample_world)
  ∧ ∃ added : list string,
      compare_hashes ∅ sample_snapshot = Return (added, [], [])
      ∧ NoDup added
      ∧ list_to_set added = dom sample_snapshot.
Proof.
  apply load_hashes_no_baseline; reflexivity.
Defined.


(** * Further properties *)

(** ** Comparison *)

Lemma filter_nil_forall {A : Type} (P : A → Prop) `{∀ x, Decision (P x)}
    (l : list A) :
  filter P l = [] ↔ ∀ x, x ∈ l → ¬ P x.
Proof.
  split.
  - intros Hnil x Hx HP. by apply (filter_nil_not_elem_of P l x).
  - intros Hall. destruct (filter P l) as [|x k] eqn:E; [done|].
    assert (Hx : x ∈ filter P l) by (rewrite E; left).
    apply list_elem_of_filter in Hx as [HP Hx]. by destruct (Hall x Hx).
Qed.

(** Equal snapshots give three empty lists. *)
Lemma compare_hashes_same (hashes : snapshot) :
  compare_hashes hashes hashes = Return ([], [], []).
Proof.
  rewrite compare_hashes_eq.
  replace (dom hashes ∖ dom hashes) with (∅ : gset string) by set_solver.
  rewrite elements_empty. do 2 f_equal.
  apply filter_nil_forall. intros p _ Hne. by apply Hne.
Qed.

(** Three empty lists come from equal snapshots only. *)
Lemma compare_hashes_nil_inv (baseline current : snapshot) :
  compare_hashes baseline current = Return ([], [], []) → baseline = current.
Proof.
  rewrite compare_hashes_eq.
  intros [= Hadded Hremoved Hchanged].
  apply elements_empty_iff, leibniz_equiv in Hadded, Hremoved.
  rewrite filter_nil_forall in Hchanged.
  apply map_eq. intros p.
  destruct (decide (p ∈ dom baseline)) as [Hb|Hb],
    (decide (p ∈ dom current)) as [Hc|Hc].
  - destruct (decide (baseline !! p = current !! p)) as [|Hne]; [done|].
    destruct (Hchanged p); [|done]. apply elem_of_elements. set_solver.
  - set_solver.
  - set_solver.
  - apply not_elem_of_dom in Hb, Hc. by rewrite Hb, Hc.
Qed.

(** X1: [compare_hashes] returns three empty lists exactly when the two
    snapshots are equal. *)
Theorem compare_hashes_nil_iff (baseline current : snapshot) :
  compare_hashes baseline current = Return ([], [], []) ↔ baseline = current.
Proof.
  split; [apply compare_hashes_nil_inv|].
  intros <-. apply compare_hashes_same.
Qed.


(** X3: the result describes the step from the baseline to the current
    snapshot: taking the removed paths from the keys of the baseline and
    adding the added ones gives the keys of the current snapshot, the
    sizes add up accordingly, and a changed path is a key of both. *)
Theorem compare_hashes_applies (baseline current : snapshot) :
  ∃ d : diff_result,
    compare_hashes baseline current = Return d
    ∧ dom current
      = (dom baseline ∖ list_to_set (removed_of d)) ∪ list_to_set (added_of d)
    ∧ (size current + length (removed_of d)
       = size baseline + length (added_of d))%nat
    ∧ ∀ p, p ∈ changed_of d →
           ∃ old new, baseline !! p = Some old ∧ current !! p = Some new
                      ∧ old ≠ new.
Proof.
  pose proof (compare_hashes_eq baseline current) as Heq.
  eexists. split; [exact Heq|].
  pose proof (λ p, compare_hashes_added _ _ _ p Heq) as HA.
  pose proof (λ p, compare_hashes_removed _ _ _ p Heq) as HR.
  pose proof (λ p, compare_hashes_changed _ _ _ p Heq) as HC.
  split_and!.
  - apply set_eq. intros p.
    rewrite elem_of_union, elem_of_difference, !elem_of_list_to_set, HA, HR.
    destruct (decide (p ∈ dom baseline)), (decide (p ∈ dom current));
      naive_solver.
  - unfold added_of, removed_of; simpl.
    rewrite <- !size_dom.
    change (length (elements (dom baseline ∖ dom current)))
      with (size (dom baseline ∖ dom current)).
    change (length (elements (dom current ∖ dom baseline)))
      with (size (dom current ∖ dom baseline)).
    rewrite <- !size_union_alt. f_equal. set_solver.
  - intros p (Hb & Hc & Hne)%HC.
    apply elem_of_dom in Hb as [old Hold], Hc as [new Hnew].
    exists old, new. split_and!; [done..|]. congruence.
Qed.

(** ** Hashing and scanning *)

Section FurtherScanProperties.

Variable hashlib : hashlib_module.


Lemma scan_fold_dom (w : world) (algorithm : string) (paths : list string) :
  dom (scan_fold hashlib w algorithm paths ∅)
  = list_to_set (filter (λ p, hashed hashlib w algorithm p = true) paths).
Proof.
  apply set_eq. intros p.
  rewrite elem_of_dom, scan_fold_lookup, lookup_empty.
  rewrite elem_of_list_to_set, list_elem_of_filter. unfold hashed.
  destruct (hash_outcome hashlib w algorithm p) as [d|e].
  - destruct (decide (p ∈ paths)); [split; eauto|].
    split; [by intros [? ?]|by intros [_ ?]].
  - split; [by intros [? ?]|by intros [? _]].
Qed.

Lemma scan_errors_length (w : world) (algorithm : string) (paths : list string) :
  length (scan_errors hashlib w algorithm paths)
  = length (filter (λ p, hashed hashlib w algorithm p = false) paths).
Proof.
  induction paths as [|p paths IH]; [done|].
  rewrite scan_errors_cons, filter_cons.
  destruct (hash_outcome hashlib w algorithm p) as [d|e] eqn:E.
  - rewrite decide_False by (unfold hashed; by rewrite E). done.
  - rewrite decide_True by (unfold hashed; by rewrite E). simpl. by rewrite IH.
Qed.

Lemma hashed_split_length (w : world) (algorithm : string) (paths : list string) :
  (length (filter (λ p, hashed hashlib w algorithm p = true) paths)
   + length (filter (λ p, hashed hashlib w algorithm p = false) paths)
   = length paths)%nat.
Proof.
  induction paths as [|p paths IH]; [done|].
  rewrite !filter_cons.
  destruct (hashed hashlib w algorithm p); simpl; lia.
Qed.


End FurtherScanProperties.

(** ** The hash database *)


(** X7: [load_hashes] changes nothing, and only the absence of the
    database is taken for an empty snapshot: a database that may not be
    opened raises [PermissionError], a directory in its place
    [IsADirectoryError], and a file that is empty or holds blanks only
    [JSONDecodeError]. *)
Theorem load_hashes_failures (db_path : string) (w : world) :
  (load_hashes db_path w).2 = w
  ∧ (files w !! db_path = Some Denied →
     ∃ msg, (load_hashes db_path w).1 = Raise (Exn PermissionError msg))
  ∧ (files w !! db_path = None → is_Some (dirs w !! db_path) →
     ∃ msg, (load_hashes db_path w).1 = Raise (Exn IsADirectoryError msg))
  ∧ (∀ content,
       files w !! db_path = Some (Data content) →
       skip_whitespace (String.string_of_list_byte content) = EmptyString →
       ∃ msg, (load_hashes db_path w).1 = Raise (Exn JSONDecodeError msg)).
Proof.
  split_and!.
  - destruct (load_hashes db_path w) as [r w'] eqn:E.
    by destruct (load_hashes_read_only _ _ _ _ E) as [-> _].
  - intros Hfile.
    unfold load_hashes, os_path_exists, open_r, lift, mbind, M_bind.
    rewrite Hfile. simpl. rewrite Hfile. eauto.
  - intros Hfile [n Hdir].
    unfold load_hashes, os_path_exists, open_r, lift, mbind, M_bind.
    rewrite Hfile, Hdir. simpl. rewrite Hfile, Hdir. eauto.
  - intros content Hfile Hblank. rewrite (load_hashes_present _ content) by done.
    simpl. unfold json_loads. rewrite Hblank. eauto.
Qed.

(** ** The runs of [main] *)

Lemma hash_outcome_lookup (hashlib : hashlib_module) (w w' : world)
    (algorithm file_path : string) :
  files w !! file_path = files w' !! file_path →
  hash_outcome hashlib w algorithm file_path
  = hash_outcome hashlib w' algorithm file_path.
Proof.
  intros Hfile. unfold hash_outcome, calculate_file_hash.
  rewrite !calculate_file_hash_sized_unfold. simpl. by rewrite Hfile.
Qed.

Lemma scan_fold_ext (hashlib : hashlib_module) (w w' : world)
    (algorithm : string) (paths : list string) (file_hashes : snapshot) :
  (∀ p, p ∈ paths →
        hash_outcome hashlib w algorithm p = hash_outcome hashlib w' algorithm p) →
  scan_fold hashlib w algorithm paths file_hashes
  = scan_fold hashlib w' algorithm paths file_hashes.
Proof.
  revert file_hashes. induction paths as [|p paths IH]; intros fh Hsame; [done|].
  rewrite !scan_fold_cons, (Hsame p) by (by left).
  apply IH. intros q Hq. apply Hsame. by right.
Qed.

(** The printed lines depend on the failures only. *)
Lemma scan_errors_ext (hashlib : hashlib_module) (w w' : world)
    (algorithm : string) (paths : list string) :
  (∀ p, p ∈ paths →
        hash_outcome hashlib w algorithm p = hash_outcome hashlib w' algorithm p
        ∨ (hashed hashlib w algorithm p = true
           ∧ hashed hashlib w' algorithm p = true)) →
  scan_errors hashlib w algorithm paths = scan_errors hashlib w' algorithm paths.
Proof.
  induction paths as [|p paths IH]; intros Hsame; [done|].
  rewrite !scan_errors_cons.
  rewrite IH by (intros q Hq; apply Hsame; by right).
  destruct (Hsame p) as [->|[H1 H2]]; [by left|done|].
  unfold hashed in H1, H2.
  by destruct (hash_outcome hashlib w algorithm p),
    (hash_outcome hashlib w' algorithm p).
Qed.

Section RunProperties.

Variable hashlib : hashlib_module.

Lemma parse_args_chosen (cl : command_line) (w : world) :
  accepted hashlib cl →
  parse_args hashlib cl w =
    (Return (Namespace (cl_directory cl) (cl_init cl) (chosen_algorithm cl)), w).
Proof.
  intros Hchoice. unfold parse_args, chosen_algorithm.
  destruct (cl_algorithm cl) as [a|] eqn:E; [|done].
  by rewrite decide_True by by apply Hchoice.
Qed.

(** A scan sees directories and files only, whatever has been printed. *)
Lemma scan_directory_printed (directory algorithm : string) (w : world)
    (out : list string) :
  scan_directory hashlib directory algorithm (World (dirs w) (files w) out) =
    (Return (scan_fold hashlib w algorithm (walked_files w directory) ∅),
     World (dirs w) (files w)
       (out ++ scan_errors hashlib w algorithm (walked_files w directory))).
Proof.
  rewrite scan_directory_eq. simpl.
  change (walked_files (World (dirs w) (files w) out) directory)
    with (walked_files w directory).
  rewrite (scan_fold_ext hashlib _ w), (scan_errors_ext hashlib _ w); [done| |].
  - intros p _. left. by apply hash_outcome_lookup.
  - intros p _. by apply hash_outcome_lookup.
Qed.

(** The report of [main], as lines. *)
Lemma print_report_eq (added removed changed : list string) (w : world) :
  match added, removed, changed with
  | [], [], [] => print "No file changes detected. All files are intact."
  | _, _, _ =>
      when_nonempty added
        (print "Added files:";; print_each "  + " added);;
      when_nonempty removed
        (print "Removed files:";; print_each "  - " removed);;
      when_nonempty changed
        (print "Modified files:";; print_each "  * " changed)
  end w
  = (Return tt,
     World (dirs w) (files w)
       (stdout w ++ report_lines (added, removed, changed))).
Proof.
  unfold report_lines, added_of, removed_of, changed_of.
  destruct added as [|a added], removed as [|r removed],
    changed as [|c changed];
    unfold when_nonempty, report_section, mbind, M_bind, mret, M_ret, print;
    rewrite ?print_each_eq; simpl; rewrite ?print_each_eq; simpl;
    rewrite ?print_each_eq; simpl; unfold append;
    rewrite ?app_nil_r, <- ?app_assoc; try done.
Qed.

(** An initialisation: the scan, then the save of what it found. *)
Lemma main_init_eq (cl : command_line) (w : world) :
  accepted hashlib cl →
  cl_init cl = true →
  files w !! HASH_DB ≠ Some Denied →
  dirs w !! HASH_DB = None →
  main hashlib cl w =
    (Return tt,
     World (dirs w)
       (<[HASH_DB :=
            Data (String.list_byte_of_string
                    (json_dumps
                       (scan_fold hashlib w (chosen_algorithm cl)
                          (walked_files w (cl_directory cl)) ∅)))]> (files w))
       (stdout w
        ++ ("Initializing hash database for " +:+ cl_directory cl +:+ "...")
           :: scan_errors hashlib w (chosen_algorithm cl)
                (walked_files w (cl_directory cl))
        ++ ["Initialization complete. Hash database saved."])).
Proof.
  intros Hchoice Hinit Hfile Hdir.
  unfold main, mbind, M_bind. rewrite parse_args_chosen by done.
  simpl. rewrite Hinit. unfold print at 1.
  rewrite scan_directory_printed.
  rewrite save_hashes_written by done.
  unfold print, append. simpl. by rewrite <- !app_assoc.
Qed.

(** A check: the load, the scan, and the report of the comparison. *)
Lemma main_check_eq (cl : command_line) (w : world) (old : snapshot) :
  accepted hashlib cl →
  cl_init cl = false →
  load_hashes HASH_DB w = (Return old, w) →
  ∃ d : diff_result,
    compare_hashes old
      (scan_fold hashlib w (chosen_algorithm cl)
         (walked_files w (cl_directory cl)) ∅) = Return d
    ∧ main hashlib cl w =
        (Return tt,
         World (dirs w) (files w)
           (stdout w
            ++ ("Checking file integrity in " +:+ cl_directory cl +:+ "...")
               :: scan_errors hashlib w (chosen_algorithm cl)
                    (walked_files w (cl_directory cl))
            ++ report_lines d)).
Proof.
  intros Hchoice Hinit Hload.
  eexists. split; [apply compare_hashes_eq|].
  unfold main, mbind, M_bind. rewrite parse_args_chosen by done.
  simpl. rewrite Hinit. unfold print at 1.
  destruct (load_hashes_read_only _ _ _ _ Hload) as [_ Hout]. rewrite Hout.
  rewrite scan_directory_printed.
  unfold lift. rewrite compare_hashes_eq.
  rewrite print_report_eq. unfold append. simpl. by rewrite <- !app_assoc.
Qed.

End RunProperties.

(** ** What a run leaves alone *)

Lemma read_only_ret {A : Type} (a : A) : read_only (mret a : M A).
Proof. by intros w. Qed.

Lemma read_only_raise {A : Type} (e : exn) : read_only (raise e : M A).
Proof. by intros w. Qed.

Lemma read_only_lift {A : Type} (r : result A) : read_only (lift r).
Proof. by intros w. Qed.

Lemma read_only_print (line : string) : read_only (print line).
Proof. intros w. split_and!; [done..|]. by apply prefix_app_r. Qed.

Lemma read_only_bind {A B : Type} (m : M A) (f : A → M B) :
  read_only m → (∀ a, read_only (f a)) → read_only (m ≫= f).
Proof.
  intros Hm Hf w. unfold mbind, M_bind.
  specialize (Hm w). destruct (m w) as [[a|e] w1]; [|done].
  simpl in Hm. destruct Hm as (Hd & Hf1 & Hs), (Hf a w1) as (Hd' & Hf' & Hs').
  split_and!; [congruence..|by etrans].
Qed.

Lemma read_only_bind_post {A B : Type} (m : M A) (f : A → M B) (Q : A → Prop) :
  read_only m →
  (∀ w a w1, m w = (Return a, w1) → Q a) →
  (∀ a, Q a → read_only (f a)) →
  read_only (m ≫= f).
Proof.
  intros Hm HQ Hf w. unfold mbind, M_bind.
  specialize (Hm w). specialize (HQ w).
  destruct (m w) as [[a|e] w1]; [|done].
  simpl in Hm.
  destruct Hm as (Hd & Hf1 & Hs), (Hf a (HQ a w1 eq_refl) w1) as (Hd' & Hf' & Hs').
  split_and!; [congruence..|by etrans].
Qed.

Lemma read_only_try_except {A : Type} (body : M A) (handler : exn → M A) :
  read_only body → (∀ e, read_only (handler e)) → read_only (try_except body handler).
Proof.
  intros Hbody Hhandler w. unfold try_except.
  specialize (Hbody w). destruct (body w) as [[a|e] w1]; [done|].
  destruct (is_Exception e); [|done].
  simpl in Hbody. destruct Hbody as (Hd & Hf & Hs),
    (Hhandler e w1) as (Hd' & Hf' & Hs').
  split_and!; [congruence..|by etrans].
Qed.

Lemma read_only_for_each_io {A S : Type} (l : list A) (body : S → A → M S) (s : S) :
  (∀ s x, read_only (body s x)) → read_only (for_each_io l body s).
Proof.
  intros Hbody. revert s. induction l as [|x l IH]; intros s.
  - apply read_only_ret.
  - apply read_only_bind; auto.
Qed.

Lemma read_only_open_rb (file_path : string) : read_only (open_rb file_path).
Proof.
  intros w. unfold open_rb. by destruct (files w !! file_path) as [[?|]|].
Qed.

Lemma read_only_load_hashes (db_path : string) : read_only (load_hashes db_path).
Proof.
  intros w. destruct (load_hashes db_path w) as [r w'] eqn:E.
  by destruct (load_hashes_read_only _ _ _ _ E) as [-> _].
Qed.

Lemma read_only_writes_only {A : Type} (path : string) (m : M A) :
  read_only m → writes_only path m.
Proof.
  intros Hm w. destruct (Hm w) as (Hd & Hf & Hs).
  split_and!; [done| |done]. intros p _. by rewrite Hf.
Qed.

Lemma writes_only_bind {A B : Type} (path : string) (m : M A) (f : A → M B) :
  writes_only path m → (∀ a, writes_only path (f a)) →
  writes_only path (m ≫= f).
Proof.
  intros Hm Hf w. unfold mbind, M_bind.
  specialize (Hm w). destruct (m w) as [[a|e] w1]; [|done].
  simpl in Hm. destruct Hm as (Hd & Hf1 & Hs), (Hf a w1) as (Hd' & Hf' & Hs').
  split_and!; [congruence| |by etrans].
  intros p Hp. by rewrite Hf', Hf1.
Qed.

Lemma writes_only_save_hashes (hashes : snapshot) (db_path : string) :
  writes_only db_path (save_hashes hashes db_path).
Proof.
  intros w. unfold save_hashes, open_w.
  destruct (files w !! db_path) as [[?|]|], (dirs w !! db_path); simpl;
    split_and!; try done; intros p Hp; simpl; by rewrite lookup_insert_ne.
Qed.

Section FrameProperties.

Variable hashlib : hashlib_module.

Lemma read_only_calculate_file_hash (file_path algorithm : string) :
  read_only (calculate_file_hash hashlib file_path algorithm).
Proof. intros w. by rewrite calculate_file_hash_eq. Qed.

Lemma read_only_scan_directory (directory algorithm : string) :
  read_only (scan_directory hashlib directory algorithm).
Proof.
  intros w. rewrite scan_directory_eq. simpl.
  split_and!; [done..|]. by apply prefix_app_r.
Qed.

Lemma read_only_parse_args (cl : command_line) :
  read_only (parse_args hashlib cl).
Proof.
  unfold parse_args. destruct (cl_algorithm cl) as [a|]; [|apply read_only_ret].
  destruct (decide _); [apply read_only_ret|apply read_only_raise].
Qed.

Lemma read_only_report (added removed changed : list string) :
  read_only
    (match added, removed, changed with
     | [], [], [] => print "No file changes detected. All files are intact."
     | _, _, _ =>
         when_nonempty added
           (print "Added files:";; print_each "  + " added);;
         when_nonempty removed
           (print "Removed files:";; print_each "  - " removed);;
         when_nonempty changed
           (print "Modified files:";; print_each "  * " changed)
     end).
Proof.
  intros w. rewrite print_report_eq. simpl.
  split_and!; [done..|]. by apply prefix_app_r.
Qed.


End FrameProperties.

(** ** Initialisation and check together *)

Lemma report_lines_no_change (d : diff_result) :
  report_lines d = ["No file changes detected. All files are intact."]
  ↔ d = ([], [], []).
Proof.
  destruct d as [[added removed] changed].
  unfold report_lines, report_section, added_of, removed_of, changed_of; simpl.
  split.
  - destruct added, removed, changed; simpl; intros H; try done;
      discriminate H.
  - by intros [= -> -> ->].
Qed.

(** A duplicate-free list whose only element is [x]. *)
Lemma NoDup_only {A : Type} (l : list A) (x : A) :
  NoDup l → (∀ y, y ∈ l ↔ y = x) → l = [x].
Proof.
  intros Hnodup Hl. destruct l as [|a l].
  - assert (Hx : x ∈ []) by by apply Hl. by apply elem_of_nil in Hx.
  - assert (a = x) as -> by (apply Hl; left).
    apply NoDup_cons in Hnodup as [Hx _].
    destruct l as [|b l]; [done|].
    assert (b = x) as -> by (apply Hl; right; left).
    destruct Hx. left.
Qed.

Lemma hex_inj (a b : list byte) : hex a = hex b → a = b.
Proof.
  intros Heq. pose proof (unhex_hex a) as Ha.
  rewrite Heq, unhex_hex in Ha. by injection Ha.
Qed.

(** One digest replaced: that path is the one change. *)
Lemma compare_hashes_insert (hashes : snapshot) (p old new : string) :
  hashes !! p = Some old →
  old ≠ new →
  compare_hashes hashes (<[p := new]> hashes) = Return ([], [], [p]).
Proof.
  intros Hp Hne. rewrite compare_hashes_eq.
  assert (Hdom : dom (<[p := new]> hashes) = dom hashes).
  { rewrite dom_insert_L. apply elem_of_dom_2 in Hp. set_solver. }
  rewrite Hdom.
  replace (dom hashes ∖ dom hashes) with (∅ : gset string) by set_solver.
  rewrite elements_empty. do 2 f_equal.
  apply NoDup_only; [apply NoDup_filter, NoDup_elements|].
  intros q. rewrite list_elem_of_filter, elem_of_elements.
  destruct (decide (q = p)) as [->|Hq].
  - rewrite Hp, lookup_insert_eq. apply elem_of_dom_2 in Hp.
    split; [done|]. intros _. split; [congruence|set_solver].
  - rewrite lookup_insert_ne by done. split; [by intros [? _]|done].
Qed.

Section RoundProperties.

Variable hashlib : hashlib_module.



(** The world an initialisation leaves, seen by a later scan. *)
Lemma scan_after_save (algorithm : string) (paths : list string)
    (w w1 : world) :
  HASH_DB ∉ paths →
  (∀ p, p ≠ HASH_DB → files w1 !! p = files w !! p) →
  scan_fold hashlib w1 algorithm paths ∅ = scan_fold hashlib w algorithm paths ∅
  ∧ scan_errors hashlib w1 algorithm paths = scan_errors hashlib w algorithm paths.
Proof.
  intros Hdb Hfiles.
  assert (Hsame : ∀ p, p ∈ paths →
            hash_outcome hashlib w1 algorithm p = hash_outcome hashlib w algorithm p).
  { intros p Hp. apply hash_outcome_lookup, Hfiles. by intros ->. }
  split; [by apply scan_fold_ext|].
  apply scan_errors_ext. intros p Hp. left. by apply Hsame.
Qed.




End RoundProperties.

(** ** Failures that end a run *)

Section FailureProperties.

Variable hashlib : hashlib_module.



End FailureProperties.

(** ** Where the keys of a snapshot lie *)

Lemma string_app_nonempty (s t : string) :
  s ≠ EmptyString → s +:+ t ≠ EmptyString.
Proof. destruct s; [done|]. by rewrite append_cons. Qed.

(** Below a directory, every path is longer than the directory's prefix. *)
Lemma tree_files_below (n : node) :
  well_formed n →
  ∀ top p, p ∈ tree_files top n →
           ∃ rest, p = path_prefix top +:+ rest ∧ rest ≠ EmptyString.
Proof.
  induction n as [| |entries IH] using node_ind'; intros Hwf top p Hp.
  - by apply elem_of_nil in Hp.
  - by apply elem_of_nil in Hp.
  - inversion Hwf as [| |? Hnodup Hvalid Hchildren]; subst.
    rewrite tree_files_entries in Hp.
    apply list_elem_of_In, in_flat_map in Hp as ([name child] & He & Hp).
    apply list_elem_of_In in He, Hp.
    assert (Hname : valid_name name).
    { rewrite Forall_forall in Hvalid. apply Hvalid.
      apply (list_elem_of_fmap_2 fst _ (name, child)), He. }
    unfold entry_paths in Hp. simpl in Hp. destruct (is_dir child).
    + rewrite Forall_forall in IH, Hchildren.
      destruct (IH _ He (Hchildren _ He) _ _ Hp) as (rest & -> & _).
      rewrite os_path_join_valid, path_prefix_join by done.
      exists (name +:+ "/" +:+ rest). rewrite !string_app_assoc.
      split; [done|]. apply string_app_nonempty, Hname.
    + apply list_elem_of_singleton in Hp as ->.
      rewrite os_path_join_valid by done. exists name. split; [done|apply Hname].
Qed.

(** X16: the keys of the snapshot of a scan are spelled from the directory
    as it was given: in a well-formed tree every key is the directory, a
    separator unless the directory ends with one, and the names on the way
    down to the file. *)
Theorem scan_directory_keys_below (hashlib : hashlib_module) (w : world)
    (directory algorithm : string) :
  (∀ n, dirs w !! directory = Some n → well_formed n) →
  ∃ (file_hashes : snapshot) (errors : list string),
    scan_directory hashlib directory algorithm w =
      (Return file_hashes, World (dirs w) (files w) (stdout w ++ errors))
    ∧ ∀ p, p ∈ dom file_hashes →
           ∃ rest, p = path_prefix directory +:+ rest ∧ rest ≠ EmptyString.
Proof.
  intros Hwf. eexists _, _. split; [apply scan_directory_eq|].
  intros p Hp. rewrite scan_fold_dom in Hp.
  apply elem_of_list_to_set, list_elem_of_filter in Hp as [_ Hp].
  unfold walked_files in Hp.
  destruct (dirs w !! directory) as [n|] eqn:Hn;
    [|by apply elem_of_nil in Hp].
  by apply (tree_files_below n), Hp; apply Hwf.
Qed.

(** ** The further properties at work on the sample world *)

Lemma sample_accepted (directory : string) (init : bool) :
  accepted sample_hashlib (CommandLine directory init None).
Proof. intros a Ha. discriminate Ha. Qed.

Lemma sample_well_formed (n : node) :
  dirs sample_world !! "data" = Some n → well_formed n.
Proof.
  intros Hn. vm_compute in Hn. injection Hn as <-.
  exact sample_tree_well_formed.
Qed.

Lemma sample_database_outside : HASH_DB ∉ walked_files sample_world "data".
Proof. rewrite sample_walked_files. by apply (bool_decide_unpack _). Qed.










(** X16 at work: the keys of the scan of [data] begin with [data/]. *)
Lemma scan_directory_keys_below_witness :
  ∃ (file_hashes : snapshot) (errors : list string),
    scan_directory sample_hashlib "data" "sha256" sample_world =
      (Return file_hashes,
       World (dirs sample_world) (files sample_world)
         (stdout sample_world ++ errors))
    ∧ ∀ p, p ∈ dom file_hashes →
           ∃ rest, p = path_prefix "data" +:+ rest ∧ rest ≠ EmptyString.
Proof.
  apply scan_directory_keys_below. exact sample_well_formed.
Defined.
